(** * Sealed Merkle manifests: a shallow embedding of [generate_manifest.py]

    The development follows the script top to bottom: the byte-level
    utilities ([sha3], [hhex], [merkle_root], [int_mod],
    [find_nonce_for_mod19]), then the two manifest builders
    ([build_quran_manifest], [build_torah_manifest]).  Python exceptions are
    values of an error monad; the network and the on-disk cache appear only
    as the answers they give. *)

From Stdlib Require Import ZArith List Lia Bool Ascii String Sorted Permutation.
From Stdlib Require Import Init.Byte.
From stdpp Require Import base option list gmap.
From Equations.Prop Require Import Equations Logic.
Import ListNotations.

Local Open Scope Z_scope.

(** ** Python values *)

(** [bytes]: an immutable sequence of octets. *)
Definition bytes := list byte.

(** [str]: a sequence of Unicode code points. *)
Definition str := list N.

Definition byte_to_Z (b : byte) : Z := Z.of_N (Byte.to_N b).

Definition byte_of_Z (z : Z) : byte :=
  match Byte.of_N (Z.to_N (z mod 256)) with
  | Some b => b
  | None => x00
  end.

(** An ASCII literal of the script as a [str]. *)
Definition lit (s : string) : str :=
  map (fun a => N_of_ascii a) (list_ascii_of_string s).

(** ** Exceptions *)

Inductive exn : Type :=
| RuntimeError (msg : string)
| OverflowError
| IndexError
| ValueError
| AttributeError
| UnicodeEncodeError
| ZeroDivisionError
| KeyError
| SystemError
| RequestError.

Inductive result (A : Type) : Type :=
| Ok (a : A)
| Raise (e : exn).
Arguments Ok {A} a.
Arguments Raise {A} e.

Definition bind {A B} (r : result A) (k : A -> result B) : result B :=
  match r with
  | Ok a => k a
  | Raise e => Raise e
  end.

Notation "'let*' x ':=' r 'in' k" := (bind r (fun x => k))
  (at level 10, x pattern, r at level 200, k at level 200,
   format "'[v' 'let*'  x  :=  r  'in' '/' k ']'").

(** A list comprehension whose element expression may raise: elements are
    computed left to right and the first exception ends it. *)
Fixpoint traverse {A B} (f : A -> result B) (l : list A) : result (list B) :=
  match l with
  | [] => Ok []
  | a :: l' => let* b := f a in let* bs := traverse f l' in Ok (b :: bs)
  end.

(** [l[i]] for a non-negative index. *)
Definition getitem {A} (l : list A) (i : nat) : result A :=
  match l !! i with
  | Some a => Ok a
  | None => Raise IndexError
  end.

(** ** SHA3-256 (FIPS 202), the function behind [hashlib.sha3_256] *)

Module Keccak.

(** A lane is a 64-bit word; the state is 25 lanes, lane (x, y) at
    position [x + 5 * y]. *)
Definition mask64 : Z := 0xFFFFFFFFFFFFFFFF.

Definition rotl64 (x : Z) (n : Z) : Z :=
  Z.land (Z.lor (Z.shiftl x n) (Z.shiftr x (64 - n))) mask64.

Definition lane (st : list Z) (x y : nat) : Z :=
  nth ((x mod 5) + 5 * (y mod 5))%nat st 0.

Definition tabulate (f : nat -> nat -> Z) : list Z :=
  map (fun i => f (i mod 5)%nat (i / 5)%nat) (seq 0 25).

Definition rho_offsets : list Z :=
  [ 0;  1; 62; 28; 27;
   36; 44;  6; 55; 20;
    3; 10; 43; 25; 39;
   41; 45; 15; 21;  8;
   18;  2; 61; 56; 14].

Definition round_constants : list Z :=
  [0x0000000000000001; 0x0000000000008082; 0x800000000000808A;
   0x8000000080008000; 0x000000000000808B; 0x0000000080000001;
   0x8000000080008081; 0x8000000000008009; 0x000000000000008A;
   0x0000000000000088; 0x0000000080008009; 0x000000008000000A;
   0x000000008000808B; 0x800000000000008B; 0x8000000000008089;
   0x8000000000008003; 0x8000000000008002; 0x8000000000000080;
   0x000000000000800A; 0x800000008000000A; 0x8000000080008081;
   0x8000000000008080; 0x0000000080000001; 0x8000000080008008].

Definition theta (st : list Z) : list Z :=
  let C := map (fun x => Z.lxor (lane st x 0) (Z.lxor (lane st x 1)
                 (Z.lxor (lane st x 2) (Z.lxor (lane st x 3) (lane st x 4)))))
               (seq 0 5) in
  let D := map (fun x => Z.lxor (nth ((x + 4) mod 5)%nat C 0)
                                (rotl64 (nth ((x + 1) mod 5)%nat C 0) 1))
               (seq 0 5) in
  tabulate (fun x y => Z.lxor (lane st x y) (nth x D 0)).

(** rho then pi: lane (x, y) rotated goes to (y, 2x + 3y); read
    backwards, the lane at (X, Y) comes from (X + 3Y, X). *)
Definition rho_pi (st : list Z) : list Z :=
  tabulate (fun X Y =>
    let x := ((X + 3 * Y) mod 5)%nat in
    rotl64 (lane st x X) (nth (x + 5 * X)%nat rho_offsets 0)).

Definition chi (st : list Z) : list Z :=
  tabulate (fun x y =>
    Z.lxor (lane st x y)
           (Z.land (Z.lxor (lane st (x + 1) y) mask64) (lane st (x + 2) y))).

Definition iota (rc : Z) (st : list Z) : list Z :=
  match st with
  | [] => []
  | a :: st' => Z.lxor a rc :: st'
  end.

Definition round (st : list Z) (rc : Z) : list Z :=
  iota rc (chi (rho_pi (theta st))).

Definition keccak_f (st : list Z) : list Z :=
  fold_left round round_constants st.

(** Little-endian lanes. *)
Fixpoint lane_of_bytes (bs : list Z) : Z :=
  match bs with
  | [] => 0
  | b :: bs' => b + 256 * lane_of_bytes bs'
  end.

Fixpoint bytes_of_lane (n : nat) (l : Z) : list Z :=
  match n with
  | O => []
  | S n' => (l mod 256) :: bytes_of_lane n' (l / 256)
  end.

Fixpoint lanes_of_block (n : nat) (bs : list Z) : list Z :=
  match n with
  | O => []
  | S n' => lane_of_bytes (firstn 8 bs) :: lanes_of_block n' (skipn 8 bs)
  end.

(** SHA3-256: rate 1088 bits = 136 bytes = 17 lanes, capacity 512. *)
Definition rate : nat := 136.

Fixpoint xor_lanes (st blk : list Z) : list Z :=
  match st, blk with
  | s :: st', b :: blk' => Z.lxor s b :: xor_lanes st' blk'
  | _, _ => st
  end.

Fixpoint absorb (nblocks : nat) (st : list Z) (msg : list Z) : list Z :=
  match nblocks with
  | O => st
  | S n =>
      absorb n (keccak_f (xor_lanes st (lanes_of_block 17 (firstn rate msg))))
             (skipn rate msg)
  end.

(** Domain bits 01 and pad10*1, on whole bytes: 0x06, zeros, 0x80. *)
Definition pad (msg : list Z) : list Z :=
  let q := (rate - (length msg mod rate))%nat in
  if (q =? 1)%nat then msg ++ [0x86]
  else msg ++ [0x06] ++ repeat 0 (q - 2) ++ [0x80].

Definition sha3_256 (msg : list Z) : list Z :=
  let p := pad msg in
  let st := absorb (length p / rate) (repeat 0 25%nat) p in
  flat_map (bytes_of_lane 8) (firstn 4 st).

End Keccak.

(** [sha3(b)]: [hashlib.sha3_256(b).digest()]. *)
Definition sha3 (b : bytes) : bytes :=
  map byte_of_Z (Keccak.sha3_256 (map byte_to_Z b)).

(** [hhex(b)]: [b.hex()], two lowercase hexadecimal digits per byte. *)
Definition hex_digit (n : Z) : N :=
  N_of_ascii (nth (Z.to_nat n)
    (list_ascii_of_string "0123456789abcdef") "0"%char).

Definition hhex (b : bytes) : str :=
  flat_map (fun x => [hex_digit (byte_to_Z x / 16); hex_digit (byte_to_Z x mod 16)]) b.

Definition ascii_bytes (s : string) : bytes :=
  map (fun a => byte_of_Z (Z.of_N (N_of_ascii a))) (list_ascii_of_string s).

(** Known answers: the digests of the empty string, of [abc], and of a
    message of two blocks. *)
Example sha3_empty :
  hhex (sha3 []) = lit "a7ffc6f8bf1ed76651c14756a061d662f580ff4de43b49fa82d80a4b80f8434a".
Proof. vm_compute. reflexivity. Qed.

Example sha3_abc :
  hhex (sha3 (ascii_bytes "abc")) =
  lit "3a985da74fe225b2045c172d6bd390bd855f086e3e9d525b46bfe24511431532".
Proof. vm_compute. reflexivity. Qed.

Example sha3_137 :
  hhex (sha3 (repeat "a"%byte 137)) =
  lit "f8d6846cedd2ccfadf15c5879ef95af724d799eed7391fb1c91f95344e738614".
Proof. vm_compute. reflexivity. Qed.


(** ** [merkle_root] *)

(** [range(start, stop, step)] for a positive step. *)
Definition range (start stop step : nat) : list nat :=
  map (fun k => start + k * step)%nat (seq 0 ((stop - start + (step - 1)) / step)).

(** One turn of the [for] loop: the digest appended to [nxt] at index [i]. *)
Definition pair_digest (layer : list bytes) (i : nat) : result bytes :=
  let* left_ := getitem layer i in
  let* right_ := if (i + 1 <? length layer)%nat then getitem layer (i + 1) else Ok left_ in
  Ok (sha3 (left_ ++ right_)).

(** The [for] loop: [nxt] once every index of [range(0, len(layer), 2)] has
    been visited. *)
Definition next_layer (layer : list bytes) : result (list bytes) :=
  traverse (pair_digest layer) (range 0 (length layer) 2).

Lemma traverse_length {A B} (f : A -> result B) l bs :
  traverse f l = Ok bs -> length bs = length l.
Proof.
  revert bs; induction l as [|a l IH]; intros bs; simpl.
  - intros [= <-]; reflexivity.
  - destruct (f a); simpl; [|discriminate].
    destruct (traverse f l) as [bs'|]; simpl; [|discriminate].
    intros [= <-]; simpl; f_equal; apply IH; reflexivity.
Qed.

Lemma range_length start stop step :
  length (range start stop step) = ((stop - start + (step - 1)) / step)%nat.
Proof. unfold range. rewrite length_map, length_seq. reflexivity. Qed.

Lemma next_layer_length layer nxt :
  next_layer layer = Ok nxt -> length nxt = ((length layer + 1) / 2)%nat.
Proof.
  unfold next_layer; intros H. apply traverse_length in H.
  rewrite H, range_length. f_equal. lia.
Qed.

Lemma next_layer_shorter layer nxt :
  (1 < length layer)%nat -> next_layer layer = Ok nxt ->
  (length nxt < length layer)%nat.
Proof.
  intros Hlen H. apply next_layer_length in H. rewrite H.
  apply Nat.Div0.div_lt_upper_bound; lia.
Qed.

(** The [while] loop: the layer it exits with. *)
Equations? while_layers (layer : list bytes) : result (list bytes)
  by wf (length layer) lt :=
  while_layers layer with inspect (1 <? length layer)%nat => {
    | exist _ true Hgt with inspect (next_layer layer) => {
        | exist _ (Ok nxt) Hnxt => while_layers nxt
        | exist _ (Raise e) _ => Raise e }
    | exist _ false _ => Ok layer }.
Proof.
  apply next_layer_shorter; [apply Nat.ltb_lt; exact Hgt | exact Hnxt].
Qed.

Definition merkle_root (leaves : list bytes) : result bytes :=
  match leaves with
  | [] => Ok (sha3 [])
  | _ :: _ =>
      let* layer := while_layers leaves in
      getitem layer 0
  end.

(** ** [int_mod] and [find_nonce_for_mod19] *)

(** [int.from_bytes(b, "big")]. *)
Definition int_from_bytes_big (b : bytes) : Z :=
  fold_left (fun acc x => acc * 256 + byte_to_Z x) b 0.

(** Python's [%] on integers: the remainder takes the sign of the divisor,
    as [Z.modulo] does, and a zero divisor raises. *)
Definition int_mod (b : bytes) (m : Z) : result Z :=
  if m =? 0 then Raise ZeroDivisionError
  else Ok (int_from_bytes_big b mod m).

(** The [len] low-order base-256 digits of [n], most significant first. *)
Fixpoint be_bytes (len : nat) (n : Z) : bytes :=
  match len with
  | O => []
  | S k => be_bytes k (n / 256) ++ [byte_of_Z (n mod 256)]
  end.

(** [n.to_bytes(len, "big")] (unsigned). *)
Definition to_bytes_big (n : Z) (len : nat) : result bytes :=
  if (n <? 0) || (256 ^ Z.of_nat len <=? n) then Raise OverflowError
  else Ok (be_bytes len n).

Definition exhausted : exn :=
  RuntimeError "No nonce found within limit; increase search space.".

(** The [for] loop over [range(limit)], entered at [nonce] with [todo]
    candidates left. *)
Fixpoint search_nonce (root : bytes) (nonce : Z) (todo : nat) : result (Z * bytes) :=
  match todo with
  | O => Raise exhausted
  | S todo' =>
      let* nb := to_bytes_big nonce 8 in
      let h := sha3 (root ++ nb) in
      let* r := int_mod h 19 in
      if r =? 0 then Ok (nonce, h)
      else search_nonce root (nonce + 1) todo'
  end.

Definition find_nonce_for_mod19 (root : bytes) (limit : Z) : result (Z * bytes) :=
  search_nonce root 0 (Z.to_nat limit).

Definition default_limit : Z := 2000000.

(** ** Text utilities of the builders *)

(** [v.encode("utf-8")]: surrogates cannot be encoded. *)
Definition encode_code_point (c : N) : result bytes :=
  let b (n : N) := byte_of_Z (Z.of_N n) in
  if (c <? 0x80)%N then Ok [b c]
  else if (c <? 0x800)%N then Ok [b (0xC0 + c / 64); b (0x80 + c mod 64)]%N
  else if (0xD800 <=? c)%N && (c <=? 0xDFFF)%N then Raise UnicodeEncodeError
  else if (c <? 0x10000)%N then
    Ok [b (0xE0 + c / 4096); b (0x80 + (c / 64) mod 64); b (0x80 + c mod 64)]%N
  else if (c <? 0x110000)%N then
    Ok [b (0xF0 + c / 262144); b (0x80 + (c / 4096) mod 64);
        b (0x80 + (c / 64) mod 64); b (0x80 + c mod 64)]%N
  else Raise UnicodeEncodeError.

Definition encode_utf8 (s : str) : result bytes :=
  let* chunks := traverse encode_code_point s in Ok (concat chunks).

(** The characters [str.strip()] removes. *)
Definition is_space (c : N) : bool :=
  ((0x09 <=? c) && (c <=? 0x0D) || (0x1C <=? c) && (c <=? 0x20) ||
   (c =? 0x85) || (c =? 0xA0) || (c =? 0x1680) ||
   (0x2000 <=? c) && (c <=? 0x200A) || (c =? 0x2028) || (c =? 0x2029) ||
   (c =? 0x202F) || (c =? 0x205F) || (c =? 0x3000))%N.

(** The line boundaries of [str.splitlines()]. *)
Definition is_linebreak (c : N) : bool :=
  ((0x0A <=? c) && (c <=? 0x0D) || (0x1C <=? c) && (c <=? 0x1E) ||
   (c =? 0x85) || (c =? 0x2028) || (c =? 0x2029))%N.

Fixpoint drop_while {A} (p : A -> bool) (l : list A) : list A :=
  match l with
  | [] => []
  | a :: l' => if p a then drop_while p l' else l
  end.

(** [s.strip()] *)
Definition strip (s : str) : str :=
  rev (drop_while is_space (rev (drop_while is_space s))).

(** [s.splitlines()], [line] being the line read so far: a boundary closes
    the line, CR LF counts once, and no empty line follows a final
    boundary. *)
Fixpoint splitlines_from (line : str) (s : str) : list str :=
  match s with
  | [] => match line with [] => [] | _ :: _ => [line] end
  | c :: s' =>
      if is_linebreak c then
        line :: match s' with
                | c' :: s'' =>
                    if (c =? 0x0D)%N && (c' =? 0x0A)%N
                    then splitlines_from [] s''
                    else splitlines_from [] s'
                | [] => splitlines_from [] s'
                end
      else splitlines_from (line ++ [c]) s'
  end.

Definition splitlines (s : str) : list str := splitlines_from [] s.

(** The text before the first [sep], and the text after it if [sep]
    occurs: [s.split(sep, 1)]. *)
Fixpoint cut (sep : N) (s : str) : str * option str :=
  match s with
  | [] => ([], None)
  | c :: s' =>
      if (c =? sep)%N then ([], Some s')
      else let (before, after) := cut sep s' in (c :: before, after)
  end.

Definition str_eqb (a b : str) : bool := bool_decide (a = b).

(** ** The manifest *)

Record entry : Type := {
  name : str;
  verse_count : nat;
  verse_hashes_hex : list str;
  root_hex : str;          (* "chapter_root_hex" / "sidra_root_hex" *)
  nonce_uint64 : Z;
  sealed_root_hex : str;
  sealed_root_mod19 : Z
}.

Record manifest : Type := {
  profile : list (string * string);
  units : list entry       (* "chapters" / "sidrot" *)
}.

(** The body both builders run on a unit: leaf digests, root, seal, and
    the dictionary appended to the manifest. *)
Definition manifest_entry (unit_name : str) (verses : list str) : result entry :=
  let* verse_hashes := traverse (fun v => let* b := encode_utf8 v in Ok (sha3 b)) verses in
  let* root := merkle_root verse_hashes in
  let* found := find_nonce_for_mod19 root default_limit in
  let (nonce, sealed) := (found : Z * bytes) in
  let* residue := int_mod sealed 19 in
  Ok {| name := unit_name;
        verse_count := length verses;
        verse_hashes_hex := map hhex verse_hashes;
        root_hex := hhex root;
        nonce_uint64 := nonce;
        sealed_root_hex := hhex sealed;
        sealed_root_mod19 := residue |}.

(** Decoded JSON. *)
#[local] Set Warnings "-register-all".
Inductive json : Type :=
| JNull
| JBool (b : bool)
| JNumber (literal : str)
| JString (s : str)
| JArray (items : list json)
| JObject (fields : list (str * json)).

(** [d.get(key)] on a dictionary kept in insertion order. *)
Fixpoint dict_get {V} (d : list (str * V)) (key : str) : option V :=
  match d with
  | [] => None
  | (k, v) :: d' => if str_eqb k key then Some v else dict_get d' key
  end.

(** [d.setdefault(key, []).append(x)] *)
Fixpoint setdefault_append {V} (d : list (str * list V)) (key : str) (x : V)
  : list (str * list V) :=
  match d with
  | [] => [(key, [x])]
  | (k, v) :: d' =>
      if str_eqb k key then (k, v ++ [x]) :: d'
      else (k, v) :: setdefault_append d' key x
  end.

(** Insertion of [x] into a list sorted by key, before the first element
    with a key at least as large: folding it from the right is a stable sort. *)
Fixpoint insert_by_key {A} (x : Z * A) (l : list (Z * A)) : list (Z * A) :=
  match l with
  | [] => [x]
  | y :: l' => if fst x <=? fst y then x :: l else y :: insert_by_key x l'
  end.

Definition sort_by_key {A} (l : list (Z * A)) : list (Z * A) :=
  fold_right insert_by_key [] l.

Definition is_hebrew (c : N) : bool :=
  ((0x0590 <=? c) && (c <=? 0x05FF) || (0xFB1D <=? c) && (c <=? 0xFB4F))%N.

Definition quran_profile : list (string * string) :=
  [("tradition", "QURAN"); ("source", "Tanzil"); ("edition", "Uthmani (UTF-8)");
   ("url", "https://tanzil.net/pub/download/quran-uthmani.txt")]%string.

Definition torah_profile : list (string * string) :=
  [("tradition", "TORAH"); ("source", "Sefaria");
   ("version_hint", "Hebrew with vowels + cantillation");
   ("url_template",
    "https://www.sefaria.org/api/texts/{ref}?lang=he&vhe=Tanach%20with%20Nikud%20and%20Cantillation")]%string.

Section Builders.

(** What the script takes from outside the repository: Unicode
    normalisation, the parsing of integers, and the answers of the fetch
    layer (cache or network), fixed for the duration of a build. *)
Variable nfc : str -> str.                     (* unicodedata.normalize("NFC", s) *)
Variable py_int : str -> result Z.             (* int(x) *)
Variable quran_text : result str.              (* fetch_quran_uthmani() *)
Variable sefaria_data : str -> result json.    (* the decoded answer for a ref *)

(** [sorted(keys, key=lambda x: int(x))] *)
Definition sorted_by_int (keys : list str) : result (list str) :=
  let* keyed := traverse (fun x => let* k := py_int x in Ok (k, x)) keys in
  Ok (map snd (sort_by_key keyed)).

(** The parsing loop of [build_quran_manifest]: one turn. *)
Definition add_line (chapters : list (str * list str)) (line : str)
  : list (str * list str) :=
  let line := strip line in
  match cut 124 line with                      (* "|" *)
  | (_, None) => chapters                      (* empty, or no "|" *)
  | (ref, Some verse) =>
      let sura := fst (cut 58 ref) in          (* ref.split(":")[0] *)
      setdefault_append chapters sura (nfc verse)
  end.

Definition parse_chapters (text : str) : list (str * list str) :=
  fold_left add_line (splitlines text) [].

Definition build_quran_manifest : result manifest :=
  let* text := quran_text in
  let chapters := parse_chapters text in
  let* suras := sorted_by_int (map fst chapters) in
  let* entries :=
    traverse (fun sura =>
                let* verses := match dict_get chapters sura with
                               | Some verses => Ok verses
                               | None => Raise KeyError
                               end in
                manifest_entry (lit "Sura " ++ sura) verses)
             suras in
  Ok {| profile := quran_profile; units := entries |}.

(** The local function [flatten] of [fetch_sefaria_ref]. *)
Fixpoint flatten (x : json) : list str :=
  match x with
  | JArray items => flat_map flatten items
  | JString s => [nfc s]
  | _ => []
  end.

Definition fetch_sefaria_ref (ref : str) : result (list str) :=
  let* data := sefaria_data ref in
  let* text := match data with
               | JObject fields =>
                   Ok (default (JArray []) (dict_get fields (lit "text")))
               | _ => Raise AttributeError
               end in
  Ok (List.filter (fun v => existsb is_hebrew v) (flatten text)).

Definition warning (ref : str) : str :=
  lit "WARNING: No verses retrieved for " ++ ref.

(** The loop of [build_torah_manifest] over the references still to
    process; [entries] is [manifest["sidrot"]] and [out] the lines printed
    so far. *)
Fixpoint torah_loop (refs : list str) (entries : list entry) (out : list str)
  : list str * result (list entry) :=
  match refs with
  | [] => (out, Ok entries)
  | ref :: refs' =>
      match fetch_sefaria_ref ref with
      | Raise e => (out, Raise e)
      | Ok [] => torah_loop refs' entries (out ++ [warning ref])
      | Ok verses =>
          match manifest_entry ref verses with
          | Raise e => (out, Raise e)
          | Ok en => torah_loop refs' (entries ++ [en]) out
          end
      end
  end.

(** The lines printed, and the manifest or the exception. *)
Definition build_torah_manifest (sidrot_list : list str)
  : list str * result manifest :=
  let (out, r) := torah_loop sidrot_list [] [] in
  (out, let* entries := r in Ok {| profile := torah_profile; units := entries |}).

End Builders.

(** The value of a non-empty string of ASCII digits, which is what [int]
    gives on such a string; every other string is rejected, among them
    some that [int] accepts (a sign, surrounding whitespace, underscores
    between digits, digits of other scripts).  It stands for [int] in the
    examples only, on keys made of ASCII digits or of a letter. *)
Definition ascii_int (s : str) : result Z :=
  match s with
  | [] => Raise ValueError
  | _ :: _ =>
      fold_left (fun acc c =>
                   let* n := acc in
                   if (48 <=? c)%N && (c <=? 57)%N
                   then Ok (10 * n + Z.of_N (c - 48))
                   else Raise ValueError)
                s (Ok 0)
  end.

(* ================================================================== *)
(** * Properties *)

(** ** The error monad *)

Lemma bind_ok {A B} (r : result A) (k : A -> result B) b :
  bind r k = Ok b -> exists a, r = Ok a /\ k a = Ok b.
Proof. destruct r as [a|e]; simpl; [eauto | discriminate]. Qed.

Lemma traverse_app {A B} (f : A -> result B) l1 l2 :
  traverse f (l1 ++ l2) =
  let* b1 := traverse f l1 in let* b2 := traverse f l2 in Ok (b1 ++ b2).
Proof.
  induction l1 as [|a l1 IH]; simpl.
  - destruct (traverse f l2); reflexivity.
  - destruct (f a); simpl; [|reflexivity]. rewrite IH.
    destruct (traverse f l1); simpl; [|reflexivity].
    destruct (traverse f l2); reflexivity.
Qed.

Lemma traverse_lookup {A B} (f : A -> result B) l bs i a :
  traverse f l = Ok bs -> l !! i = Some a ->
  exists b, f a = Ok b /\ bs !! i = Some b.
Proof.
  revert bs i; induction l as [|x l IH]; intros bs i; simpl.
  - intros _ Hi. discriminate Hi.
  - intros H Hi. apply bind_ok in H as (b & Hb & H).
    apply bind_ok in H as (bs' & Hbs & [= <-]).
    destruct i as [|i]; simpl in *.
    + injection Hi as ->. eauto.
    + eapply IH; eauto.
Qed.

(** ** Encodings on small inputs *)

Example to_bytes_big_258 :
  to_bytes_big 258 8 = Ok [x00; x00; x00; x00; x00; x00; x01; x02].
Proof. reflexivity. Qed.

Example to_bytes_big_overflow : to_bytes_big (2 ^ 64) 8 = Raise OverflowError.
Proof. reflexivity. Qed.

Example int_from_bytes_big_258 : int_from_bytes_big [x01; x02] = 258.
Proof. reflexivity. Qed.

Example encode_utf8_widths :
  encode_utf8 [0x66; 0x5D9; 0x20AC; 0x1F600]%N =
  Ok [x66; xd7; x99; xe2; x82; xac; xf0; x9f; x98; x80].
Proof. reflexivity. Qed.

Example encode_utf8_surrogate : encode_utf8 [0xD800%N] = Raise UnicodeEncodeError.
Proof. reflexivity. Qed.

Example splitlines_boundaries :
  splitlines (lit "a" ++ [13; 10]%N ++ lit "b" ++ [10; 10]%N ++ lit "c" ++ [10]%N)
  = [lit "a"; lit "b"; []; lit "c"].
Proof. reflexivity. Qed.

Example hhex_bytes : hhex [x00; x0f; xa5; xff] = lit "000fa5ff".
Proof. reflexivity. Qed.

(** ** The nonce search *)

(** The digest the search computes for candidate [n]. *)
Definition seal_digest (root : bytes) (n : Z) : bytes :=
  sha3 (root ++ be_bytes 8 n).

(** The mod-19 condition on candidate [n]. *)
Definition seals (root : bytes) (n : Z) : Prop :=
  int_from_bytes_big (seal_digest root n) mod 19 = 0.

Lemma to_bytes_big_uint64 n :
  0 <= n < 2 ^ 64 -> to_bytes_big n 8 = Ok (be_bytes 8 n).
Proof.
  intros [H0 H1]. unfold to_bytes_big.
  destruct (Z.ltb_spec n 0); [lia|].
  change (256 ^ Z.of_nat 8) with (2 ^ 64).
  destruct (Z.leb_spec (2 ^ 64) n); [lia|]. reflexivity.
Qed.

Lemma search_nonce_step root nonce todo :
  0 <= nonce < 2 ^ 64 ->
  search_nonce root nonce (S todo) =
  if int_from_bytes_big (seal_digest root nonce) mod 19 =? 0
  then Ok (nonce, seal_digest root nonce)
  else search_nonce root (nonce + 1) todo.
Proof.
  intros H. cbn [search_nonce]. rewrite (to_bytes_big_uint64 _ H).
  reflexivity.
Qed.

Lemma search_nonce_finds root todo : forall nonce m,
  0 <= nonce <= m -> m < nonce + Z.of_nat todo -> m < 2 ^ 64 ->
  seals root m ->
  exists n, search_nonce root nonce todo = Ok (n, seal_digest root n) /\
            nonce <= n <= m /\ seals root n /\
            forall k, nonce <= k < n -> ~ seals root k.
Proof.
  induction todo as [|todo IH]; intros nonce m Hm Hlt H64 Hs; [lia|].
  rewrite search_nonce_step by lia.
  destruct (Z.eqb_spec (int_from_bytes_big (seal_digest root nonce) mod 19) 0)
    as [Hz|Hnz].
  - exists nonce. repeat split; try lia. exact Hz.
  - assert (nonce <> m) by (intros ->; exact (Hnz Hs)).
    destruct (IH (nonce + 1) m) as (n & Hn & Hr & Hsn & Hmin); try lia; [exact Hs|].
    exists n. repeat split; try lia; [exact Hn | exact Hsn |].
    intros k Hk. destruct (Z.eq_dec k nonce) as [->|]; [exact Hnz|].
    apply Hmin; lia.
Qed.

Lemma search_nonce_exhausts root todo : forall nonce,
  0 <= nonce -> nonce + Z.of_nat todo <= 2 ^ 64 ->
  (search_nonce root nonce todo = Raise exhausted <->
   forall k, nonce <= k < nonce + Z.of_nat todo -> ~ seals root k).
Proof.
  induction todo as [|todo IH]; intros nonce H0 H64.
  - split; [intros _ k Hk; lia | reflexivity].
  - rewrite search_nonce_step by lia.
    destruct (Z.eqb_spec (int_from_bytes_big (seal_digest root nonce) mod 19) 0)
      as [Hz|Hnz].
    + split; [discriminate|]. intros Hno. exfalso. apply (Hno nonce); [lia|exact Hz].
    + rewrite IH by lia. split; intros Hno k Hk.
      * destruct (Z.eq_dec k nonce) as [->|]; [exact Hnz|]. apply Hno; lia.
      * apply Hno; lia.
Qed.

(** The all-zero root of 32 bytes; its first sealing nonce is 27. *)
Definition zero_root : bytes := repeat "000"%byte 32.

(** A root sealed by nonce 1 and not by nonce 0. *)
Definition ff_root : bytes := repeat "255"%byte 32.

(** C1: [find_nonce_for_mod19] returns the pair [(n, digest)] where
    [digest = SHA3-256(root || n encoded as 8 bytes big-endian)], [digest]
    read as a big-endian unsigned integer is congruent to 0 mod 19, and [n]
    is the least non-negative integer with that property, the candidates
    being tried in ascending order from 0.  It does so for every root and
    limit for which some nonce below the limit (and below 2^64) has the
    property; the other case is the exhaustion of C5. *)
Theorem find_nonce_least (root : bytes) (limit m : Z) :
  0 <= m < limit -> m < 2 ^ 64 -> seals root m ->
  exists n, find_nonce_for_mod19 root limit = Ok (n, seal_digest root n) /\
            0 <= n <= m /\
            int_from_bytes_big (seal_digest root n) mod 19 = 0 /\
            forall k, 0 <= k < n -> ~ seals root k.
Proof.
  intros Hm H64 Hs. unfold find_nonce_for_mod19.
  apply search_nonce_finds; try lia; exact Hs.
Qed.

Lemma find_nonce_least_witness :
  exists n, find_nonce_for_mod19 zero_root default_limit
              = Ok (n, seal_digest zero_root n) /\
            0 <= n <= 27 /\
            int_from_bytes_big (seal_digest zero_root n) mod 19 = 0 /\
            forall k, 0 <= k < n -> ~ seals zero_root k.
Proof.
  apply (find_nonce_least zero_root default_limit 27).
  - unfold default_limit; lia.
  - lia.
  - vm_compute. reflexivity.
Defined.

(** C5: for a limit within the 64-bit nonce range, the search raises the
    exhaustion error exactly when no nonce in [0, limit) satisfies the
    mod-19 condition; with [limit = 1] and a root whose nonce-0 digest is not
    a multiple of 19 it raises and returns no pair. *)
Theorem find_nonce_exhaustion (root : bytes) (limit : Z) :
  limit <= 2 ^ 64 ->
  (find_nonce_for_mod19 root limit = Raise exhausted <->
   forall n, 0 <= n < limit -> ~ seals root n) /\
  (limit = 1 -> ~ seals root 0 ->
   find_nonce_for_mod19 root limit = Raise exhausted /\
   forall p, find_nonce_for_mod19 root limit <> Ok p).
Proof.
  intros H64.
  assert (Hiff : find_nonce_for_mod19 root limit = Raise exhausted <->
                 forall n, 0 <= n < limit -> ~ seals root n).
  { unfold find_nonce_for_mod19. rewrite search_nonce_exhausts by lia.
    split; intros H n Hn; apply H; lia. }
  split; [exact Hiff|].
  intros -> H0.
  assert (Hr : find_nonce_for_mod19 root 1 = Raise exhausted).
  { apply Hiff. intros n Hn. replace n with 0 by lia. exact H0. }
  split; [exact Hr|]. intros p Hp. rewrite Hr in Hp. discriminate Hp.
Qed.

Lemma find_nonce_exhaustion_witness :
  find_nonce_for_mod19 zero_root 1 = Raise exhausted /\
  forall p, find_nonce_for_mod19 zero_root 1 <> Ok p.
Proof.
  apply (find_nonce_exhaustion zero_root 1).
  - lia.
  - reflexivity.
  - unfold seals. vm_compute. discriminate.
Defined.

(** ** The Merkle builder *)

(** The next layer in the words of the specification: consecutive pairs are
    hashed as [Hash(left || right)], an unpaired last element is paired with
    itself. *)
Fixpoint pair_up (layer : list bytes) : list bytes :=
  match layer with
  | [] => []
  | [last] => [sha3 (last ++ last)]
  | l :: r :: rest => sha3 (l ++ r) :: pair_up rest
  end.

Lemma pair_ind {A} (P : list A -> Prop) :
  P [] -> (forall a, P [a]) -> (forall a b l, P l -> P (a :: b :: l)) ->
  forall l, P l.
Proof.
  intros Hnil Hone Hstep l.
  assert (H : P l /\ forall a, P (a :: l)).
  { induction l as [|x l [IH1 IH2]]; split; auto. }
  exact (proj1 H).
Qed.

Lemma half_succ_succ n : ((S (S n) + 1) / 2 = S ((n + 1) / 2))%nat.
Proof.
  replace (S (S n) + 1)%nat with ((n + 1) + 1 * 2)%nat by lia.
  rewrite Nat.div_add by lia. lia.
Qed.

Lemma pair_up_length layer : length (pair_up layer) = ((length layer + 1) / 2)%nat.
Proof.
  induction layer as [| a | a b l IH] using pair_ind; [reflexivity..|].
  cbn [pair_up length]. rewrite IH, half_succ_succ. reflexivity.
Qed.

Lemma pair_digest_last pre a :
  pair_digest (pre ++ [a]) (length pre) = Ok (sha3 (a ++ a)).
Proof.
  unfold pair_digest, getitem.
  rewrite list_lookup_middle by reflexivity. cbn [bind].
  rewrite length_app. cbn [length].
  destruct (Nat.ltb_spec (length pre + 1) (length pre + 1)); [lia|].
  reflexivity.
Qed.

Lemma pair_digest_pair pre a b rest :
  pair_digest (pre ++ a :: b :: rest) (length pre) = Ok (sha3 (a ++ b)).
Proof.
  unfold pair_digest, getitem.
  rewrite list_lookup_middle by reflexivity. cbn [bind].
  rewrite length_app. cbn [length].
  destruct (Nat.ltb_spec (length pre + 1) (length pre + S (S (length rest)))); [|lia].
  replace (pre ++ a :: b :: rest) with ((pre ++ [a]) ++ b :: rest)
    by (rewrite <- app_assoc; reflexivity).
  rewrite list_lookup_middle by (rewrite length_app; reflexivity).
  reflexivity.
Qed.

Lemma traverse_pair_digest rest : forall pre p,
  length pre = (p * 2)%nat ->
  traverse (pair_digest (pre ++ rest))
           (map (fun k => 0 + k * 2)%nat (seq p ((length rest + 1) / 2)))
  = Ok (pair_up rest).
Proof.
  induction rest as [| a | a b l IH] using pair_ind; intros pre p Hp.
  - reflexivity.
  - change ((length [a] + 1) / 2)%nat with 1%nat.
    cbn [seq map traverse pair_up].
    change (0 + p * 2)%nat with (p * 2)%nat.
    rewrite <- Hp, pair_digest_last. reflexivity.
  - cbn [length]. rewrite half_succ_succ.
    cbn [seq map traverse pair_up].
    change (0 + p * 2)%nat with (p * 2)%nat.
    rewrite <- Hp, pair_digest_pair. cbn [bind].
    replace (pre ++ a :: b :: l) with ((pre ++ [a; b]) ++ l)
      by (rewrite <- app_assoc; reflexivity).
    rewrite (IH (pre ++ [a; b]) (S p)); [reflexivity|].
    rewrite length_app. cbn [length]. lia.
Qed.

(** The index loop of the source computes the pairing of the specification,
    and never raises. *)
Lemma next_layer_pair_up layer : next_layer layer = Ok (pair_up layer).
Proof.
  unfold next_layer, range.
  replace (length layer - 0 + (2 - 1))%nat with (length layer + 1)%nat by lia.
  apply (traverse_pair_digest layer [] 0%nat). reflexivity.
Qed.

Lemma while_layers_step layer :
  while_layers layer =
  if (1 <? length layer)%nat then while_layers (pair_up layer) else Ok layer.
Proof.
  pose proof (next_layer_pair_up layer) as Hp.
  funelim (while_layers layer).
  - rewrite e. reflexivity.
  - rewrite Hgt. rewrite Hnxt in Hp. injection Hp as Hp. rewrite Hp. reflexivity.
  - rewrite e1 in Hp. discriminate Hp.
Qed.

Lemma merkle_root_step a b rest :
  merkle_root (a :: b :: rest) = merkle_root (pair_up (a :: b :: rest)).
Proof.
  unfold merkle_root at 1. rewrite while_layers_step.
  cbn [length Nat.ltb Nat.leb].
  remember (pair_up (a :: b :: rest)) as nxt eqn:E.
  destruct nxt as [|x nxt]; [discriminate E|]. reflexivity.
Qed.

Lemma merkle_root_single h : merkle_root [h] = Ok h.
Proof. unfold merkle_root. rewrite while_layers_step. reflexivity. Qed.

Lemma merkle_root_iter : forall n (leaves : list bytes),
  length leaves = n -> (0 < n)%nat ->
  exists k root,
    merkle_root leaves = Ok root /\
    Nat.iter k pair_up leaves = [root] /\
    forall j, (j < k)%nat -> (1 < length (Nat.iter j pair_up leaves))%nat.
Proof.
  induction n as [n IH] using lt_wf_ind. intros leaves Hlen Hpos.
  destruct leaves as [|a [|b rest]]; [simpl in Hlen; lia| |].
  - exists 0%nat, a. split; [apply merkle_root_single|].
    split; [reflexivity|]. intros j Hj; lia.
  - destruct (IH (length (pair_up (a :: b :: rest)))) with
      (leaves := pair_up (a :: b :: rest)) as (k & root & Hroot & Hiter & Hbig).
    + rewrite pair_up_length, Hlen. subst n. cbn [length].
      apply Nat.Div0.div_lt_upper_bound; lia.
    + reflexivity.
    + cbn [pair_up length]. lia.
    + exists (S k), root. rewrite merkle_root_step. split; [exact Hroot|].
      split; [rewrite Nat.iter_succ_r; exact Hiter|].
      intros [|j] Hj; [change (1 < length (a :: b :: rest))%nat; cbn [length]; lia|].
      rewrite Nat.iter_succ_r. apply Hbig. lia.
Qed.

(** C2: for a non-empty list of leaf digests, [merkle_root] maps the layer
    to the next one by hashing each consecutive pair as
    [SHA3-256(left || right)], an odd last element with itself, again and
    again until one element remains, which is the root; for leaves
    [A, B, C] the root is [Hash(Hash(A+B) + Hash(C+C))]. *)
Theorem merkle_root_layers (leaves : list bytes) (A B C : bytes) :
  (0 < length leaves)%nat ->
  next_layer leaves = Ok (pair_up leaves) /\
  (exists k root,
     merkle_root leaves = Ok root /\
     Nat.iter k pair_up leaves = [root] /\
     forall j, (j < k)%nat -> (1 < length (Nat.iter j pair_up leaves))%nat) /\
  merkle_root [A; B; C] = Ok (sha3 (sha3 (A ++ B) ++ sha3 (C ++ C))).
Proof.
  intros Hpos. split; [apply next_layer_pair_up|].
  split; [apply (merkle_root_iter (length leaves)); [reflexivity | exact Hpos]|].
  rewrite merkle_root_step. cbn [pair_up]. rewrite merkle_root_step.
  cbn [pair_up]. apply merkle_root_single.
Qed.

Lemma merkle_root_layers_witness :
  next_layer [zero_root; ff_root] = Ok (pair_up [zero_root; ff_root]) /\
  (exists k root,
     merkle_root [zero_root; ff_root] = Ok root /\
     Nat.iter k pair_up [zero_root; ff_root] = [root] /\
     forall j, (j < k)%nat ->
       (1 < length (Nat.iter j pair_up [zero_root; ff_root]))%nat) /\
  merkle_root [zero_root; ff_root; zero_root] =
    Ok (sha3 (sha3 (zero_root ++ ff_root) ++ sha3 (zero_root ++ zero_root))).
Proof.
  apply (merkle_root_layers [zero_root; ff_root] zero_root ff_root zero_root).
  simpl. lia.
Defined.

(** C3: on the empty sequence [merkle_root] returns the SHA3-256 digest of
    the empty byte string, a value and not an exception. *)
Theorem merkle_root_empty :
  merkle_root [] = Ok (sha3 []) /\
  hhex (sha3 []) =
    lit "a7ffc6f8bf1ed76651c14756a061d662f580ff4de43b49fa82d80a4b80f8434a".
Proof. split; [reflexivity | exact sha3_empty]. Qed.

(** C4: on a one-element list [[h]] the root is [h] itself: the loop body
    is not entered and no hash is taken. *)
Theorem merkle_root_singleton (h : bytes) :
  merkle_root [h] = Ok h /\ while_layers [h] = Ok [h].
Proof.
  split; [apply merkle_root_single|].
  rewrite while_layers_step. reflexivity.
Qed.

(** ** [merkle_root] on the store of list objects

    Python lists are mutable objects reached through references.  Here the
    lists live in a store, [leaves] is a reference into it, and each
    statement of [merkle_root] is a store transformer: [leaves[:]] and [[]]
    allocate, [nxt.append] updates in place, [layer = nxt] rebinds a local
    name.  A reference the store does not hold cannot arise in Python; the
    model answers it with [SystemError]. *)

Module Store.

Abbreviation ref := positive (only parsing).
Abbreviation store := (gmap positive (list bytes)) (only parsing).

Definition St (A : Type) : Type := store -> result A * store.

Definition ret {A} (a : A) : St A := fun s => (Ok a, s).

Definition bind {A B} (m : St A) (k : A -> St B) : St B :=
  fun s =>
    match m s with
    | (Ok a, s') => k a s'
    | (Raise e, s') => (Raise e, s')
    end.

Notation "'let!' x ':=' m 'in' k" := (bind m (fun x => k))
  (at level 10, x pattern, m at level 200, k at level 200,
   format "'[v' 'let!'  x  :=  m  'in' '/' k ']'").

(** A new list object holding [v]. *)
Definition list_new (v : list bytes) : St ref :=
  fun s => let r := fresh (dom s) in (Ok r, <[r := v]> s).

Definition list_read (r : ref) : St (list bytes) :=
  fun s =>
    match s !! r with
    | Some v => (Ok v, s)
    | None => (Raise SystemError, s)
    end.

(** [len(r)] *)
Definition list_len (r : ref) : St nat :=
  let! v := list_read r in ret (length v).

(** [r[i]] *)
Definition list_getitem (r : ref) (i : nat) : St bytes :=
  let! v := list_read r in fun s => (getitem v i, s).

(** [r.append(x)] *)
Definition list_append (r : ref) (x : bytes) : St unit :=
  let! v := list_read r in fun s => (Ok tt, <[r := v ++ [x]]> s).

(** [r[:]] *)
Definition list_copy (r : ref) : St ref :=
  let! v := list_read r in list_new v.

(** The [for] loop over the indices still to visit. *)
Fixpoint for_pairs (layer nxt : ref) (idxs : list nat) : St unit :=
  match idxs with
  | [] => ret tt
  | i :: idxs' =>
      let! left_ := list_getitem layer i in
      let! n := list_len layer in
      let! right_ := if (i + 1 <? n)%nat then list_getitem layer (i + 1)
                     else ret left_ in
      let! _ := list_append nxt (sha3 (left_ ++ right_)) in
      for_pairs layer nxt idxs'
  end.

(** The body of the [while] loop; its value is what [layer] is rebound to. *)
Definition loop_body (layer : ref) : St ref :=
  let! nxt := list_new [] in
  let! n := list_len layer in
  let! _ := for_pairs layer nxt (range 0 n 2) in
  ret nxt.

Lemma list_read_some (s : store) r v : s !! r = Some v -> list_read r s = (Ok v, s).
Proof. intros H. unfold list_read. rewrite H. reflexivity. Qed.

Lemma list_len_some (s : store) r v : s !! r = Some v -> list_len r s = (Ok (length v), s).
Proof. intros H. unfold list_len, bind. rewrite (list_read_some _ _ _ H). reflexivity. Qed.

Lemma list_getitem_some (s : store) r v i :
  s !! r = Some v -> list_getitem r i s = (getitem v i, s).
Proof. intros H. unfold list_getitem, bind. rewrite (list_read_some _ _ _ H). reflexivity. Qed.

Lemma list_append_some (s : store) r v x :
  s !! r = Some v -> list_append r x s = (Ok tt, <[r := v ++ [x]]> s).
Proof. intros H. unfold list_append, bind. rewrite (list_read_some _ _ _ H). reflexivity. Qed.

Lemma list_len_inv (s s' : store) r n :
  list_len r s = (Ok n, s') -> s' = s /\ exists v, s !! r = Some v /\ n = length v.
Proof.
  unfold list_len, bind, list_read, ret.
  destruct (s !! r) as [v|] eqn:E; [|discriminate].
  intros [= <- <-]. eauto.
Qed.

(** The store-level [for] loop appends to [nxt] the digests the value-level
    loop computes, and touches nothing else. *)
Lemma for_pairs_spec idxs : forall (s : store) layer nxt lv acc ds,
  layer <> nxt -> s !! layer = Some lv -> s !! nxt = Some acc ->
  traverse (pair_digest lv) idxs = Ok ds ->
  for_pairs layer nxt idxs s = (Ok tt, <[nxt := acc ++ ds]> s).
Proof.
  induction idxs as [|i idxs IH]; intros s layer nxt lv acc ds Hne Hl Hn Ht.
  - injection Ht as <-. rewrite app_nil_r, insert_id by exact Hn. reflexivity.
  - cbn [traverse] in Ht.
    apply bind_ok in Ht as (d & Hd & Ht).
    apply bind_ok in Ht as (ds' & Hds & [= <-]).
    unfold pair_digest in Hd.
    apply bind_ok in Hd as (x & Hx & Hd).
    apply bind_ok in Hd as (y & Hy & [= <-]).
    cbn [for_pairs]. unfold bind at 1.
    rewrite (list_getitem_some _ _ _ _ Hl), Hx.
    unfold bind at 1. rewrite (list_len_some _ _ _ Hl).
    unfold bind at 1.
    assert (Hr : (if (i + 1 <? length lv)%nat then list_getitem layer (i + 1)
                  else ret x) s = (Ok y, s)).
    { destruct (i + 1 <? length lv)%nat.
      - rewrite (list_getitem_some _ _ _ _ Hl), Hy. reflexivity.
      - injection Hy as <-. reflexivity. }
    rewrite Hr. unfold bind at 1. rewrite (list_append_some _ _ _ _ Hn).
    rewrite (IH _ layer nxt lv (acc ++ [sha3 (x ++ y)]) ds' Hne).
    + rewrite insert_insert_eq, <- app_assoc. reflexivity.
    + rewrite lookup_insert_ne by congruence. exact Hl.
    + apply lookup_insert_eq.
    + exact Hds.
Qed.

Lemma fresh_unbound (s : store) : s !! fresh (dom s) = None.
Proof. apply not_elem_of_dom. apply is_fresh. Qed.

(** One turn of the [while] loop allocates the next layer and leaves every
    list of the store as it was. *)
Lemma loop_body_spec (s : store) layer lv :
  s !! layer = Some lv ->
  loop_body layer s = (Ok (fresh (dom s)), <[fresh (dom s) := pair_up lv]> s).
Proof.
  intros Hl. unfold loop_body, bind at 1, list_new.
  pose proof (fresh_unbound s) as Hf.
  assert (Hne : layer <> fresh (dom s)) by (intros ->; congruence).
  set (nxt := fresh (dom s)) in *.
  assert (Hl' : (<[nxt := []]> s : store) !! layer = Some lv)
    by (rewrite lookup_insert_ne by congruence; exact Hl).
  unfold bind at 1. rewrite (list_len_some _ _ _ Hl').
  unfold bind at 1.
  rewrite (for_pairs_spec _ _ layer nxt lv [] (pair_up lv) Hne Hl').
  - rewrite insert_insert_eq. reflexivity.
  - apply lookup_insert_eq.
  - apply next_layer_pair_up.
Qed.

(** The [while] loop; its value is the list [layer] names at exit. *)
Equations? while_layers (layer : ref) (s : store) : result ref * store
  by wf (length (default [] (s !! layer))) lt :=
  while_layers layer s with inspect (list_len layer s) => {
    | exist _ (Ok n, s1) Hlen with inspect (1 <? n)%nat => {
        | exist _ true Hgt with inspect (loop_body layer s1) => {
            | exist _ (Ok nxt, s2) Hbody => while_layers nxt s2
            | exist _ (Raise e, s2) _ => (Raise e, s2) }
        | exist _ false _ => (Ok layer, s1) }
    | exist _ (Raise e, s1) _ => (Raise e, s1) }.
Proof.
  apply list_len_inv in Hlen as (-> & lv & Hl & ->).
  rewrite (loop_body_spec _ _ _ Hl) in Hbody. injection Hbody as <- <-.
  rewrite Hl, lookup_insert_eq.
  change (length (pair_up lv) < length lv)%nat. rewrite pair_up_length.
  apply Nat.ltb_lt in Hgt. apply Nat.Div0.div_lt_upper_bound; lia.
Qed.

Definition merkle_root (leaves : ref) : St bytes :=
  let! lv := list_read leaves in
  match lv with
  | [] => ret (sha3 [])
  | _ :: _ =>
      let! layer := list_copy leaves in
      let! layer := while_layers layer in
      list_getitem layer 0
  end.

End Store.

Lemma store_while_layers_step (s : gmap positive (list bytes)) layer lv :
  s !! layer = Some lv ->
  Store.while_layers layer s =
  if (1 <? length lv)%nat
  then Store.while_layers (fresh (dom s)) (<[fresh (dom s) := pair_up lv]> s)
  else (Ok layer, s).
Proof.
  intros Hl.
  pose proof (Store.list_len_some _ _ _ Hl) as Hn.
  pose proof (Store.loop_body_spec _ _ _ Hl) as Hb.
  funelim (Store.while_layers layer s);
    repeat match goal with
           | H : {| pr1 := _ |} = _ |- _ => clear H
           end;
    match goal with
    | H : Store.list_len _ _ = (Raise _, _) |- _ =>
        rewrite Hn in H; discriminate H
    | H : Store.list_len _ _ = (Ok _, _) |- _ =>
        rewrite Hn in H; injection H as <- <-
    end;
    match goal with
    | H : (1 <? _)%nat = _ |- _ => rewrite H
    end;
    try reflexivity;
    match goal with
    | H : Store.loop_body _ _ = (Raise _, _) |- _ =>
        rewrite Hb in H; discriminate H
    | H : Store.loop_body _ _ = (Ok _, _) |- _ =>
        rewrite Hb in H; injection H as <- <-
    end;
    reflexivity.
Qed.

(** The store-level loop computes what the value-level loop computes, in a
    store that extends the one it started from. *)
Lemma store_while_layers_spec : forall n lv layer (s : gmap positive (list bytes)),
  length lv = n -> s !! layer = Some lv ->
  exists layer' s',
    Store.while_layers layer s = (Ok layer', s') /\ s ⊆ s' /\
    exists final, s' !! layer' = Some final /\ while_layers lv = Ok final.
Proof.
  induction n as [n IH] using lt_wf_ind. intros lv layer s Hlen Hl.
  rewrite (store_while_layers_step _ _ _ Hl), while_layers_step.
  destruct (Nat.ltb_spec 1 (length lv)) as [Hgt|Hle].
  - destruct (IH (length (pair_up lv))) with
      (lv := pair_up lv) (layer := fresh (dom s))
      (s := <[fresh (dom s) := pair_up lv]> s)
      as (layer' & s' & Hw & Hsub & final & Hf & Hp).
    + rewrite pair_up_length, Hlen. subst n.
      apply Nat.Div0.div_lt_upper_bound; lia.
    + reflexivity.
    + apply lookup_insert_eq.
    + exists layer', s'. split; [exact Hw|]. split; [|eauto].
      etrans; [|exact Hsub].
      apply insert_subseteq, Store.fresh_unbound.
  - exists layer, s. split; [reflexivity|]. split; [reflexivity|]. eauto.
Qed.

(** C10: [merkle_root] leaves the list it is given as it found it.  Run on
    any store in which [leaves] names the list [lv], it returns what the
    value-level function returns on [lv], and in the store it ends with
    [leaves] still names [lv]; indeed every list of the initial store is
    unchanged, the call only allocates (the copy and the layers). *)
Theorem merkle_root_keeps_leaves
  (s : gmap positive (list bytes)) (leaves : positive) (lv : list bytes) :
  s !! leaves = Some lv ->
  exists s',
    Store.merkle_root leaves s = (merkle_root lv, s') /\
    s' !! leaves = Some lv /\
    s ⊆ s'.
Proof.
  intros Hl. unfold Store.merkle_root, Store.bind at 1.
  rewrite (Store.list_read_some _ _ _ Hl).
  destruct lv as [|a lv'].
  - exists s. split; [reflexivity|]. split; [exact Hl | reflexivity].
  - set (lv := a :: lv') in *.
    unfold Store.bind at 1, Store.list_copy, Store.bind at 1.
    rewrite (Store.list_read_some _ _ _ Hl). unfold Store.list_new.
    pose proof (Store.fresh_unbound s) as Hfresh.
    set (layer := fresh (dom s)) in *.
    destruct (store_while_layers_spec (length lv) lv layer (<[layer := lv]> s))
      as (layer' & s' & Hw & Hsub & final & Hf & Hp);
      [reflexivity | apply lookup_insert_eq |].
    unfold Store.bind at 1. rewrite Hw.
    rewrite (Store.list_getitem_some _ _ _ _ Hf).
    assert (Hext : s ⊆ s').
    { etrans; [|exact Hsub]. apply insert_subseteq. exact Hfresh. }
    exists s'. split; [|split; [|exact Hext]].
    + unfold merkle_root. subst lv. rewrite Hp. reflexivity.
    + eapply lookup_weaken; [exact Hl | exact Hext].
Qed.

Lemma merkle_root_keeps_leaves_witness :
  exists s',
    Store.merkle_root 1%positive {[ 1%positive := [zero_root; ff_root; zero_root] ]}
      = (merkle_root [zero_root; ff_root; zero_root], s') /\
    s' !! 1%positive = Some [zero_root; ff_root; zero_root] /\
    ({[ 1%positive := [zero_root; ff_root; zero_root] ]} : gmap positive (list bytes)) ⊆ s'.
Proof.
  apply (merkle_root_keeps_leaves
           {[ 1%positive := [zero_root; ff_root; zero_root] ]} 1%positive
           [zero_root; ff_root; zero_root]).
  reflexivity.
Defined.

(** ** The manifest builders *)

Arguments sha3 : simpl never.

Lemma traverse_Forall2 {A B} (f : A -> result B) l bs :
  traverse f l = Ok bs -> Forall2 (fun a b => f a = Ok b) l bs.
Proof.
  revert bs; induction l as [|a l IH]; intros bs H; cbn [traverse] in H.
  - injection H as <-. constructor.
  - apply bind_ok in H as (b & Hb & H).
    apply bind_ok in H as (bs' & Hbs & [= <-]).
    constructor; [exact Hb | apply IH; exact Hbs].
Qed.

(** Whatever pair the search returns, its digest is a multiple of 19. *)
Lemma search_nonce_sound root todo : forall nonce n d,
  search_nonce root nonce todo = Ok (n, d) ->
  d = seal_digest root n /\ int_mod d 19 = Ok 0.
Proof.
  induction todo as [|todo IH]; intros nonce n d H; cbn [search_nonce] in H.
  - discriminate H.
  - destruct (to_bytes_big nonce 8) as [nb|] eqn:Hnb; cbn [bind] in H;
      [|discriminate H].
    assert (Enb : nb = be_bytes 8 nonce).
    { unfold to_bytes_big in Hnb.
      destruct ((nonce <? 0) || (256 ^ Z.of_nat 8 <=? nonce));
        [discriminate Hnb | congruence]. }
    cbv zeta in H.
    destruct (int_mod (sha3 (root ++ nb)) 19) as [r|] eqn:Hr; cbn [bind] in H;
      [|discriminate H].
    destruct (r =? 0) eqn:Hz.
    + apply Z.eqb_eq in Hz. injection H as <- <-.
      split; [unfold seal_digest; congruence | congruence].
    + apply (IH _ _ _ H).
Qed.

Lemma find_nonce_sound root limit n d :
  find_nonce_for_mod19 root limit = Ok (n, d) -> int_mod d 19 = Ok 0.
Proof. intros H. apply (search_nonce_sound _ _ _ _ _ H). Qed.

(** Lowercase hexadecimal digits. *)
Definition lower_hex (c : N) : Prop := In c (lit "0123456789abcdef").

Lemma byte_to_Z_range x : 0 <= byte_to_Z x < 256.
Proof.
  unfold byte_to_Z. pose proof (Byte.to_N_bounded x) as H. lia.
Qed.

Lemma hex_digit_lower n : 0 <= n < 16 -> lower_hex (hex_digit n).
Proof.
  intros Hn.
  assert (H : exists k, (k < 16)%nat /\ n = Z.of_nat k)
    by (exists (Z.to_nat n); lia).
  destruct H as (k & Hk & ->).
  do 16 (destruct k as [|k]; [vm_compute; tauto|]). lia.
Qed.

Lemma hhex_lowercase b : Forall lower_hex (hhex b).
Proof.
  induction b as [|x b IH]; [constructor|].
  change (hhex (x :: b)) with
    ([hex_digit (byte_to_Z x / 16); hex_digit (byte_to_Z x mod 16)] ++ hhex b).
  pose proof (byte_to_Z_range x) as Hx.
  apply Forall_app. split; [|exact IH].
  constructor; [|constructor; [|constructor]]; apply hex_digit_lower.
  - split; [apply Z.div_pos; lia | apply Z.div_lt_upper_bound; lia].
  - apply Z.mod_pos_bound. lia.
Qed.

Lemma hhex_length b : length (hhex b) = (2 * length b)%nat.
Proof.
  induction b as [|x b IH]; [reflexivity|].
  change (hhex (x :: b)) with
    ([hex_digit (byte_to_Z x / 16); hex_digit (byte_to_Z x mod 16)] ++ hhex b).
  rewrite length_app, IH. cbn [length]. lia.
Qed.

(** What an entry records about the verses of its unit. *)
Definition leaves_recorded (verses : list str) (e : entry) : Prop :=
  verse_count e = length verses /\
  length (verse_hashes_hex e) = verse_count e /\
  Forall (Forall lower_hex) (verse_hashes_hex e) /\
  forall i v, verses !! i = Some v ->
    exists b, encode_utf8 v = Ok b /\
              verse_hashes_hex e !! i = Some (hhex (sha3 b)).

Lemma manifest_entry_spec unit_name verses e :
  manifest_entry unit_name verses = Ok e ->
  name e = unit_name /\ sealed_root_mod19 e = 0 /\ leaves_recorded verses e.
Proof.
  unfold manifest_entry. intros H.
  apply bind_ok in H as (hs & Hhs & H).
  apply bind_ok in H as (root & Hroot & H).
  apply bind_ok in H as ([nonce sealed] & Hfound & H).
  apply bind_ok in H as (r & Hr & [= <-]).
  rewrite (find_nonce_sound _ _ _ _ Hfound) in Hr. injection Hr as <-.
  split; [reflexivity|]. split; [reflexivity|].
  unfold leaves_recorded. cbn [verse_count verse_hashes_hex].
  split; [reflexivity|].
  split; [rewrite length_map; apply (traverse_length _ _ _ Hhs)|].
  split.
  - apply List.Forall_forall. intros h Hh. apply in_map_iff in Hh as (b & <- & _).
    apply hhex_lowercase.
  - intros i v Hv.
    destruct (traverse_lookup _ _ _ _ _ Hhs Hv) as (d & Hd & Hi).
    apply bind_ok in Hd as (b & Hb & [= <-]).
    exists b. split; [exact Hb|].
    rewrite list_lookup_fmap, Hi. reflexivity.
Qed.

(** *** Stable sorting by key *)

Lemma insert_by_key_perm {A} (x : Z * A) l : Permutation (insert_by_key x l) (x :: l).
Proof.
  induction l as [|y l IH]; cbn [insert_by_key]; [reflexivity|].
  destruct (fst x <=? fst y); [reflexivity|].
  rewrite IH. apply perm_swap.
Qed.

Lemma sort_by_key_perm {A} (l : list (Z * A)) : Permutation (sort_by_key l) l.
Proof.
  induction l as [|x l IH]; cbn [sort_by_key fold_right]; [reflexivity|].
  rewrite insert_by_key_perm. apply perm_skip. exact IH.
Qed.

Definition key_le {A} (x y : Z * A) : Prop := fst x <= fst y.

Lemma insert_by_key_sorted {A} (x : Z * A) l :
  StronglySorted key_le l -> StronglySorted key_le (insert_by_key x l).
Proof.
  induction 1 as [|y l Hl IH Hy]; cbn [insert_by_key].
  - repeat constructor.
  - destruct (Z.leb_spec (fst x) (fst y)) as [Hle|Hgt].
    + constructor; [constructor; assumption|].
      constructor; [exact Hle|].
      eapply List.Forall_impl; [|exact Hy]. unfold key_le. intros z Hz. lia.
    + constructor; [exact IH|].
      rewrite (List.Forall_forall (key_le y)). intros z Hz.
      apply (Permutation_in _ (insert_by_key_perm x l)) in Hz as [<-|Hz].
      * unfold key_le. lia.
      * rewrite List.Forall_forall in Hy. apply Hy. exact Hz.
Qed.

Lemma sort_by_key_sorted {A} (l : list (Z * A)) : StronglySorted key_le (sort_by_key l).
Proof.
  induction l as [|x l IH]; cbn [sort_by_key fold_right]; [constructor|].
  apply insert_by_key_sorted. exact IH.
Qed.

(** Elements with equal keys keep their order. *)
Lemma sort_by_key_stable {A} (l : list (Z * A)) k :
  filter (fun x => fst x = k) (sort_by_key l) = filter (fun x => fst x = k) l.
Proof.
  induction l as [|x l IH]; [reflexivity|].
  cbn [sort_by_key fold_right]. fold (sort_by_key l).
  rewrite (filter_cons _ x l), <- IH. clear IH.
  induction (sort_by_key l) as [|y s IHs]; [reflexivity|].
  cbn [insert_by_key].
  destruct (Z.leb_spec (fst x) (fst y)) as [Hle|Hgt]; [reflexivity|].
  rewrite (filter_cons _ y), IHs, (filter_cons _ y s).
  destruct (decide (fst x = k)) as [Hx|Hx]; [|reflexivity].
  destruct (decide (fst y = k)) as [Hy|Hy]; [lia | reflexivity].
Qed.

Lemma Forall2_in_r {A B} (P : A -> B -> Prop) l1 l2 b :
  Forall2 P l1 l2 -> In b l2 -> exists a, In a l1 /\ P a b.
Proof.
  induction 1 as [|a b' l1 l2 Hab _ IH]; intros Hin; [destruct Hin|].
  destruct Hin as [<-|Hin].
  - exists a. split; [left; reflexivity | exact Hab].
  - destruct (IH Hin) as (a' & Ha' & HP). exists a'. split; [right|]; assumption.
Qed.

Lemma Forall2_map_eq {A B C} (f : A -> C) (g : B -> C) l1 l2 :
  Forall2 (fun a b => g b = f a) l1 l2 -> map g l2 = map f l1.
Proof. induction 1 as [|a b l1 l2 Hab _ IH]; cbn [map]; congruence. Qed.

Lemma Forall2_weaken {A B} (P Q : A -> B -> Prop) l1 l2 :
  (forall a b, P a b -> Q a b) -> Forall2 P l1 l2 -> Forall2 Q l1 l2.
Proof. intros HPQ. induction 1; constructor; auto. Qed.

(** What an entry records about the root and its seal. *)
Definition seal_recorded (e : entry) : Prop :=
  exists root sealed,
    root_hex e = hhex root /\
    sealed_root_hex e = hhex sealed /\
    sealed = seal_digest root (nonce_uint64 e) /\
    int_from_bytes_big sealed mod 19 = 0.

Lemma manifest_entry_sealed unit_name verses e :
  manifest_entry unit_name verses = Ok e -> seal_recorded e.
Proof.
  unfold manifest_entry. intros H.
  apply bind_ok in H as (hs & Hhs & H).
  apply bind_ok in H as (root & Hroot & H).
  apply bind_ok in H as ([nonce sealed] & Hfound & H).
  apply bind_ok in H as (r & Hr & [= <-]).
  destruct (search_nonce_sound _ _ _ _ _ Hfound) as [Hd Hm].
  exists root, sealed. cbn [root_hex sealed_root_hex nonce_uint64].
  repeat split; try reflexivity; [exact Hd|].
  unfold int_mod in Hm. cbn in Hm. congruence.
Qed.

Section BuilderFacts.

Variable nfc : str -> str.
Variable py_int : str -> result Z.
Variable quran_text : result str.
Variable sefaria_data : str -> result json.

Let loop := torah_loop nfc sefaria_data.

(** A reference whose unit has at least one verse. *)
Definition has_verses (ref : str) : bool :=
  match fetch_sefaria_ref nfc sefaria_data ref with
  | Ok (_ :: _) => true
  | _ => false
  end.

(** A unit of the Torah builder and the entry made from it. *)
Definition torah_unit (ref : str) (e : entry) : Prop :=
  exists verses, fetch_sefaria_ref nfc sefaria_data ref = Ok verses /\
                 verses <> [] /\ manifest_entry ref verses = Ok e.

(** A unit of the Qur'an builder and the entry made from it. *)
Definition quran_unit (chapters : list (str * list str)) (sura : str) (e : entry)
  : Prop :=
  exists verses, dict_get chapters sura = Some verses /\
                 manifest_entry (lit "Sura " ++ sura) verses = Ok e.

Lemma torah_loop_inv refs : forall entries out out' entries',
  loop refs entries out = (out', Ok entries') ->
  exists new,
    entries' = entries ++ new /\
    Forall2 torah_unit (List.filter has_verses refs) new /\
    out' = out ++ map warning (List.filter (fun r => negb (has_verses r)) refs).
Proof.
  subst loop.
  induction refs as [|ref refs IH]; intros entries out out' entries' H;
    cbn [torah_loop] in H.
  - injection H as <- <-. exists []. rewrite !app_nil_r.
    repeat split. constructor.
  - cbn [List.filter].
    destruct (fetch_sefaria_ref nfc sefaria_data ref) as [[|v vs]|] eqn:Hf;
      [| |discriminate H].
    + assert (Hh : has_verses ref = false)
        by (unfold has_verses; rewrite Hf; reflexivity).
      rewrite Hh. cbn [negb map].
      apply IH in H as (new & -> & HF & ->). exists new.
      rewrite <- app_assoc. repeat split. exact HF.
    + assert (Hh : has_verses ref = true)
        by (unfold has_verses; rewrite Hf; reflexivity).
      rewrite Hh. cbn [negb].
      destruct (manifest_entry ref (v :: vs)) as [en|] eqn:He; [|discriminate H].
      apply IH in H as (new & -> & HF & ->). exists (en :: new).
      rewrite <- app_assoc. repeat split.
      constructor; [|exact HF].
      exists (v :: vs). repeat split; [exact Hf | discriminate | exact He].
Qed.

Lemma build_torah_inv refs out m :
  build_torah_manifest nfc sefaria_data refs = (out, Ok m) ->
  Forall2 torah_unit (List.filter has_verses refs) (units m) /\
  out = map warning (List.filter (fun r => negb (has_verses r)) refs).
Proof.
  unfold build_torah_manifest.
  destruct (torah_loop nfc sefaria_data refs [] []) as [out' [es|]] eqn:Hl;
    cbn [bind]; [|discriminate].
  intros [= <- <-]. apply torah_loop_inv in Hl as (new & -> & HF & ->).
  split; [exact HF | reflexivity].
Qed.

(** The chapter keys paired with their integer values, in the order of
    their first appearance in the text. *)
Definition keyed_suras (text : str) : result (list (Z * str)) :=
  traverse (fun x => let* k := py_int x in Ok (k, x))
           (map fst (parse_chapters nfc text)).

Lemma build_quran_inv m :
  build_quran_manifest nfc py_int quran_text = Ok m ->
  exists text keyed,
    quran_text = Ok text /\ keyed_suras text = Ok keyed /\
    Forall2 (quran_unit (parse_chapters nfc text))
            (map snd (sort_by_key keyed)) (units m).
Proof.
  unfold build_quran_manifest. intros H.
  apply bind_ok in H as (text & Ht & H).
  apply bind_ok in H as (suras & Hs & H).
  apply bind_ok in H as (entries & He & [= <-]).
  unfold sorted_by_int in Hs.
  apply bind_ok in Hs as (keyed & Hk & [= <-]).
  exists text, keyed. split; [exact Ht|]. split; [exact Hk|].
  cbn [units]. apply traverse_Forall2 in He.
  eapply Forall2_weaken; [|exact He].
  intros sura e Hb. cbv beta in Hb.
  apply bind_ok in Hb as (verses & Hv & Hb).
  exists verses. split; [|exact Hb].
  destruct (dict_get (parse_chapters nfc text) sura); [congruence | discriminate Hv].
Qed.

Lemma keyed_suras_keys text keyed :
  keyed_suras text = Ok keyed ->
  map snd keyed = map fst (parse_chapters nfc text) /\
  Forall (fun kx => py_int (snd kx) = Ok (fst kx)) keyed.
Proof.
  unfold keyed_suras. generalize (map fst (parse_chapters nfc text)) as keys.
  intros keys; revert keyed.
  induction keys as [|x keys IH]; intros keyed H; cbn [traverse] in H.
  - injection H as <-. split; [reflexivity | constructor].
  - apply bind_ok in H as (kx & Hkx & H).
    apply bind_ok in H as (rest & Hrest & [= <-]).
    apply bind_ok in Hkx as (k & Hk & [= <-]).
    destruct (IH _ Hrest) as [Hm HF].
    split; [cbn [map snd]; congruence | constructor; [exact Hk | exact HF]].
Qed.

Lemma torah_loop_app l1 l2 : forall entries out,
  loop (l1 ++ l2) entries out =
  match loop l1 entries out with
  | (out1, Ok entries1) => loop l2 entries1 out1
  | (out1, Raise e) => (out1, Raise e)
  end.
Proof.
  subst loop.
  induction l1 as [|ref l1 IH]; intros entries out; [reflexivity|].
  cbn [app torah_loop].
  destruct (fetch_sefaria_ref nfc sefaria_data ref) as [[|v vs]|]; [apply IH| |reflexivity].
  destruct (manifest_entry ref (v :: vs)); [apply IH | reflexivity].
Qed.


End BuilderFacts.

(** *** The verses of a chapter, in the order of the text *)

Section ChapterVerses.

Variable nfc : str -> str.

(** The verses the line contributes to chapter [sura]. *)
Definition line_verses (sura : str) (line : str) : list str :=
  match cut 124 (strip line) with
  | (ref, Some verse) =>
      if str_eqb (fst (cut 58 ref)) sura then [nfc verse] else []
  | (_, None) => []
  end.

(** The verses of chapter [sura] in the order of the lines of the text. *)
Definition sura_verses (sura : str) (text : str) : list str :=
  flat_map (line_verses sura) (splitlines text).

Lemma dict_get_setdefault_append {V} (d : list (str * list V)) key x k :
  dict_get (setdefault_append d key x) k =
  if str_eqb key k then Some (default [] (dict_get d key) ++ [x])
  else dict_get d k.
Proof.
  unfold str_eqb.
  induction d as [|[k' v] d IH]; cbn [setdefault_append dict_get]; unfold str_eqb.
  - destruct (bool_decide (key = k)); reflexivity.
  - destruct (bool_decide_reflect (k' = key)) as [->|Hne];
      cbn [dict_get]; unfold str_eqb.
    + destruct (bool_decide (key = k)); reflexivity.
    + rewrite IH.
      destruct (bool_decide_reflect (key = k)) as [->|Hne'].
      * rewrite bool_decide_eq_false_2 by exact Hne. reflexivity.
      * reflexivity.
Qed.

Lemma dict_get_add_line d line k :
  dict_get (add_line nfc d line) k =
  match dict_get d k, line_verses k line with
  | None, [] => None
  | o, vs => Some (default [] o ++ vs)
  end.
Proof.
  unfold add_line, line_verses.
  destruct (cut 124 (strip line)) as [ref [verse|]].
  - rewrite dict_get_setdefault_append.
    destruct (str_eqb (fst (cut 58 ref)) k) eqn:E.
    + apply bool_decide_eq_true_1 in E. rewrite E.
      destruct (dict_get d k); reflexivity.
    + destruct (dict_get d k); [rewrite app_nil_r|]; reflexivity.
  - destruct (dict_get d k); [rewrite app_nil_r|]; reflexivity.
Qed.

Lemma dict_get_fold_add_line lines : forall d k,
  dict_get (fold_left (add_line nfc) lines d) k =
  match dict_get d k, flat_map (line_verses k) lines with
  | None, [] => None
  | o, vs => Some (default [] o ++ vs)
  end.
Proof.
  induction lines as [|line lines IH]; intros d k; cbn [fold_left flat_map].
  - destruct (dict_get d k); [rewrite app_nil_r|]; reflexivity.
  - rewrite IH, dict_get_add_line.
    destruct (dict_get d k) as [v|]; destruct (line_verses k line) as [|x xs];
      unfold default, from_option, id; cbn [app];
      rewrite ?app_nil_r, <- ?app_assoc; reflexivity.
Qed.

(** [chapters[sura]] holds the verses of the chapter in text order. *)
Lemma parse_chapters_verses text sura verses :
  dict_get (parse_chapters nfc text) sura = Some verses ->
  verses = sura_verses sura text.
Proof.
  unfold parse_chapters, sura_verses. rewrite dict_get_fold_add_line.
  cbn [dict_get]. destruct (flat_map (line_verses sura) (splitlines text));
    [discriminate | intros [= <-]; reflexivity].
Qed.

(** No chapter of the Qur'an builder is empty: a key enters [chapters]
    together with its first verse. *)
Lemma parse_chapters_nonempty text sura verses :
  dict_get (parse_chapters nfc text) sura = Some verses -> verses <> [].
Proof.
  unfold parse_chapters. rewrite dict_get_fold_add_line.
  cbn [dict_get]. destruct (flat_map (line_verses sura) (splitlines text));
    [discriminate | intros [= <-]; discriminate].
Qed.

End ChapterVerses.

(** *** Inputs for the examples *)

(** A text with chapter 2 before chapter 1. *)
Definition demo_text : str := lit "2:1|f" ++ [10%N] ++ lit "1:1|f".

(** A fetch layer that knows two references: one with a single Hebrew
    verse, one whose answer has no text. *)
Definition demo_sefaria (ref : str) : result json :=
  if str_eqb ref (lit "Genesis 1:1") then
    Ok (JObject [(lit "text", JArray [JString [0x05D9%N]])])
  else if str_eqb ref (lit "Nothing") then Ok (JObject [])
  else Raise RequestError.

Section BuilderClaims.

Variable nfc : str -> str.
Variable py_int : str -> result Z.
Variable quran_text : result str.
Variable sefaria_data : str -> result json.

(** C6: in every entry of a manifest built by either builder the field
    [sealed_root_mod19] is 0, and the sealed digest whose hex form the entry
    holds, read as a big-endian integer, is a multiple of 19. *)
Theorem sealed_root_mod19_is_zero
  (sidrot_list out : list str) (m : manifest) (e : entry) :
  build_quran_manifest nfc py_int quran_text = Ok m \/
  build_torah_manifest nfc sefaria_data sidrot_list = (out, Ok m) ->
  In e (units m) ->
  sealed_root_mod19 e = 0 /\ seal_recorded e.
Proof.
  intros [Hq|Ht] He.
  - apply build_quran_inv in Hq as (text & keyed & _ & _ & HF).
    destruct (Forall2_in_r _ _ _ _ HF He) as (sura & _ & verses & _ & Hm).
    split; [apply (manifest_entry_spec _ _ _ Hm) | apply (manifest_entry_sealed _ _ _ Hm)].
  - apply build_torah_inv in Ht as [HF _].
    destruct (Forall2_in_r _ _ _ _ HF He) as (ref & _ & verses & _ & _ & Hm).
    split; [apply (manifest_entry_spec _ _ _ Hm) | apply (manifest_entry_sealed _ _ _ Hm)].
Qed.


(** C8: the entries follow the units in order.  For the Qur'an builder the
    chapters are taken in ascending order of their number ([sorted] with
    [key=int], chapters with equal numbers in the order of their first
    appearance) and the entries are named after them in that order; for the
    Torah builder the names of the entries are the references of the list,
    in the order of the list, those without verses left out. *)
Theorem entries_in_unit_order (sidrot_list : list str) :
  (forall m,
     build_quran_manifest nfc py_int quran_text = Ok m ->
     exists text keyed,
       quran_text = Ok text /\
       keyed_suras nfc py_int text = Ok keyed /\
       map snd keyed = map fst (parse_chapters nfc text) /\
       Forall (fun kx => py_int (snd kx) = Ok (fst kx)) keyed /\
       map name (units m) =
         map (fun kx => lit "Sura " ++ snd kx) (sort_by_key keyed) /\
       Permutation (sort_by_key keyed) keyed /\
       StronglySorted key_le (sort_by_key keyed) /\
       forall k, filter (fun kx => fst kx = k) (sort_by_key keyed) =
                 filter (fun kx => fst kx = k) keyed) /\
  (forall out m,
     build_torah_manifest nfc sefaria_data sidrot_list = (out, Ok m) ->
     map name (units m) = List.filter (has_verses nfc sefaria_data) sidrot_list).
Proof.
  split.
  - intros m Hq. apply build_quran_inv in Hq as (text & keyed & Ht & Hk & HF).
    exists text, keyed. destruct (keyed_suras_keys _ _ _ _ Hk) as [Hkeys Hints].
    repeat split; try assumption.
    + rewrite <- (map_map snd (fun s => lit "Sura " ++ s)).
      apply Forall2_map_eq. eapply Forall2_weaken; [|exact HF].
      intros sura e (verses & _ & Hm). apply (manifest_entry_spec _ _ _ Hm).
    + apply sort_by_key_perm.
    + apply sort_by_key_sorted.
    + apply sort_by_key_stable.
  - intros out m Ht. apply build_torah_inv in Ht as [HF _].
    rewrite <- (map_id (List.filter _ _)).
    apply Forall2_map_eq. eapply Forall2_weaken; [|exact HF].
    intros ref e (verses & _ & _ & Hm). apply (manifest_entry_spec _ _ _ Hm).
Qed.

(** C9: in the entry of every unit, [verse_hashes_hex] holds at index [i]
    the lowercase hex form of the SHA3-256 digest of the UTF-8 encoding of
    the [i]-th verse of the unit, and [verse_count] is the number of verses
    and of hashes.  The verses of a chapter are those of its lines in the
    order of the text; the verses of a sidra are those the fetch returned. *)
Theorem leaf_hashes_follow_verses (sidrot_list : list str) :
  (forall m,
     build_quran_manifest nfc py_int quran_text = Ok m ->
     exists text keyed,
       quran_text = Ok text /\
       keyed_suras nfc py_int text = Ok keyed /\
       Forall2 (fun sura e => leaves_recorded (sura_verses nfc sura text) e)
               (map snd (sort_by_key keyed)) (units m)) /\
  (forall out m,
     build_torah_manifest nfc sefaria_data sidrot_list = (out, Ok m) ->
     Forall2 (fun ref e =>
                exists verses,
                  fetch_sefaria_ref nfc sefaria_data ref = Ok verses /\
                  leaves_recorded verses e)
             (List.filter (has_verses nfc sefaria_data) sidrot_list) (units m)).
Proof.
  split.
  - intros m Hq. apply build_quran_inv in Hq as (text & keyed & Ht & Hk & HF).
    exists text, keyed. repeat split; try assumption.
    eapply Forall2_weaken; [|exact HF].
    intros sura e (verses & Hv & Hm).
    apply parse_chapters_verses in Hv as <-.
    apply (manifest_entry_spec _ _ _ Hm).
  - intros out m Ht. apply build_torah_inv in Ht as [HF _].
    eapply Forall2_weaken; [|exact HF].
    intros ref e (verses & Hf & _ & Hm). exists verses.
    split; [exact Hf | apply (manifest_entry_spec _ _ _ Hm)].
Qed.

End BuilderClaims.

Lemma sealed_root_mod19_is_zero_witness :
  exists m e,
    build_torah_manifest (fun s => s) demo_sefaria [lit "Genesis 1:1"] = ([], Ok m) /\
    In e (units m) /\
    sealed_root_mod19 e = 0 /\ seal_recorded e.
Proof.
  eexists. eexists.
  split; [vm_compute; reflexivity|].
  split; [left; reflexivity|].
  eapply (sealed_root_mod19_is_zero (fun s => s) ascii_int (Raise RequestError)
            demo_sefaria [lit "Genesis 1:1"] []).
  - right. vm_compute. reflexivity.
  - left. reflexivity.
Defined.


Lemma entries_in_unit_order_witness :
  (exists m,
     build_quran_manifest (fun s => s) ascii_int (Ok demo_text) = Ok m /\
     map name (units m) = [lit "Sura 1"; lit "Sura 2"]) /\
  (exists m,
     build_torah_manifest (fun s => s) demo_sefaria
       [lit "Nothing"; lit "Genesis 1:1"; lit "Nothing"]
     = ([warning (lit "Nothing"); warning (lit "Nothing")], Ok m) /\
     map name (units m) = [lit "Genesis 1:1"]).
Proof.
  pose proof (entries_in_unit_order (fun s => s) ascii_int (Ok demo_text)
                demo_sefaria [lit "Nothing"; lit "Genesis 1:1"; lit "Nothing"])
    as [Hq Ht].
  split.
  - eexists. split; [vm_compute; reflexivity|].
    edestruct Hq as (text & keyed & Htext & Hk & _ & _ & Hn & _);
      [vm_compute; reflexivity|].
    injection Htext as <-.
    vm_compute in Hk. injection Hk as <-.
    rewrite Hn. vm_compute. reflexivity.
  - eexists. split; [vm_compute; reflexivity|].
    erewrite Ht; [|vm_compute; reflexivity].
    vm_compute. reflexivity.
Defined.

(** A text whose two chapters are interleaved, chapter 2 first; chapter 1
    has the verses [a], [h], [d] in this order. *)
Definition demo_text_interleaved : str :=
  lit "2:1|o" ++ [10%N] ++ lit "1:1|a" ++ [10%N] ++ lit "1:2|h" ++ [10%N] ++
  lit "2:2|m" ++ [10%N] ++ lit "1:3|d".

(** A fetch layer with two sidrot of several verses, the first nested and
    holding a string without Hebrew, and a reference without text. *)
Definition demo_sefaria_nested (ref : str) : result json :=
  if str_eqb ref (lit "Genesis 1") then
    Ok (JObject [(lit "text",
                  JArray [JArray [JString [0x05D1%N]; JString (lit "latin")];
                          JString [0x05D0%N];
                          JArray [JString [0x05D5%N]]])])
  else if str_eqb ref (lit "Exodus 1") then
    Ok (JObject [(lit "text", JArray [JString [0x05DB%N]; JString [0x05DA%N]])])
  else if str_eqb ref (lit "Nothing") then Ok (JObject [])
  else Raise RequestError.

Lemma leaf_hashes_follow_verses_witness :
  (sura_verses (fun s => s) (lit "1") demo_text_interleaved
     = [lit "a"; lit "h"; lit "d"] /\
   sura_verses (fun s => s) (lit "2") demo_text_interleaved
     = [lit "o"; lit "m"] /\
   exists m,
     build_quran_manifest (fun s => s) ascii_int (Ok demo_text_interleaved) = Ok m /\
     Forall2 (fun sura e =>
                leaves_recorded
                  (sura_verses (fun s => s) sura demo_text_interleaved) e)
             [lit "1"; lit "2"] (units m)) /\
  (fetch_sefaria_ref (fun s => s) demo_sefaria_nested (lit "Genesis 1")
     = Ok [[0x05D1%N]; [0x05D0%N]; [0x05D5%N]] /\
   exists m,
     build_torah_manifest (fun s => s) demo_sefaria_nested
       [lit "Genesis 1"; lit "Nothing"; lit "Exodus 1"]
     = ([warning (lit "Nothing")], Ok m) /\
     Forall2 (fun ref e =>
                exists verses,
                  fetch_sefaria_ref (fun s => s) demo_sefaria_nested ref = Ok verses /\
                  leaves_recorded verses e)
             [lit "Genesis 1"; lit "Exodus 1"] (units m)).
Proof.
  pose proof (leaf_hashes_follow_verses (fun s => s) ascii_int
                (Ok demo_text_interleaved) demo_sefaria_nested
                [lit "Genesis 1"; lit "Nothing"; lit "Exodus 1"]) as [Hq Ht].
  split.
  - split; [vm_compute; reflexivity|]. split; [vm_compute; reflexivity|].
    eexists. split; [vm_compute; reflexivity|].
    edestruct Hq as (text & keyed & Htext & Hk & HF); [vm_compute; reflexivity|].
    injection Htext as <-.
    vm_compute in Hk. injection Hk as <-.
    exact HF.
  - split; [vm_compute; reflexivity|].
    eexists. split; [vm_compute; reflexivity|].
    assert (Hunits : List.filter (has_verses (fun s => s) demo_sefaria_nested)
                       [lit "Genesis 1"; lit "Nothing"; lit "Exodus 1"]
                     = [lit "Genesis 1"; lit "Exodus 1"])
      by (vm_compute; reflexivity).
    rewrite <- Hunits.
    apply Ht with (out := [warning (lit "Nothing")]).
    vm_compute. reflexivity.
Defined.

(* ================================================================== *)
(** * Further properties of the script *)

(** ** Digests have 32 bytes *)

Lemma tabulate_length f : length (Keccak.tabulate f) = 25%nat.
Proof. unfold Keccak.tabulate. rewrite length_map, length_seq. reflexivity. Qed.

Lemma iota_length rc st : length (Keccak.iota rc st) = length st.
Proof. destruct st; reflexivity. Qed.

Lemma round_length st rc : length (Keccak.round st rc) = 25%nat.
Proof.
  unfold Keccak.round. rewrite iota_length. unfold Keccak.chi.
  apply tabulate_length.
Qed.

Lemma keccak_f_length st : length (Keccak.keccak_f st) = 25%nat.
Proof.
  unfold Keccak.keccak_f, Keccak.round_constants. cbn [fold_left].
  apply round_length.
Qed.

Lemma absorb_length n : forall st msg,
  length st = 25%nat -> length (Keccak.absorb n st msg) = 25%nat.
Proof.
  induction n as [|n IH]; intros st msg H; cbn [Keccak.absorb]; [exact H|].
  apply IH, keccak_f_length.
Qed.

Lemma bytes_of_lane_length n : forall l, length (Keccak.bytes_of_lane n l) = n.
Proof. induction n as [|n IH]; intros l; cbn [Keccak.bytes_of_lane length]; auto. Qed.

Lemma sha3_has_32 (b : bytes) : length (sha3 b) = 32%nat.
Proof.
  unfold sha3, Keccak.sha3_256. rewrite length_map.
  pose proof (absorb_length
                (length (Keccak.pad (map byte_to_Z b)) / Keccak.rate)
                (repeat 0 25) (Keccak.pad (map byte_to_Z b))
                (repeat_length _ _)) as H.
  destruct (Keccak.absorb _ _ _) as [|l0 [|l1 [|l2 [|l3 st]]]]; try discriminate H.
  cbn [firstn flat_map]. rewrite !length_app, !bytes_of_lane_length.
  reflexivity.
Qed.

(** X1: [sha3] returns 32 bytes whatever it is given. *)
Theorem sha3_length (b : bytes) : length (sha3 b) = 32%nat.
Proof. apply sha3_has_32. Qed.

(** ** Hexadecimal text is lossless *)

Lemma byte_of_to_Z x : byte_of_Z (byte_to_Z x) = x.
Proof.
  unfold byte_of_Z. pose proof (byte_to_Z_range x) as H.
  rewrite Z.mod_small by exact H. unfold byte_to_Z.
  rewrite N2Z.id, Byte.of_to_N. reflexivity.
Qed.

Lemma byte_to_of_Z z : byte_to_Z (byte_of_Z z) = z mod 256.
Proof.
  unfold byte_of_Z, byte_to_Z.
  pose proof (Z.mod_pos_bound z 256 eq_refl) as H.
  destruct (Byte.of_N (Z.to_N (z mod 256))) as [b|] eqn:E.
  - apply Byte.to_of_N in E. rewrite E. lia.
  - apply Byte.of_N_None_iff in E. lia.
Qed.

(** The value of a hexadecimal digit, lowercase only. *)
Definition unhex_digit (c : N) : option Z :=
  if (48 <=? c)%N && (c <=? 57)%N then Some (Z.of_N (c - 48))
  else if (97 <=? c)%N && (c <=? 102)%N then Some (Z.of_N (c - 87))
  else None.

(** The inverse of [hhex], two digits per byte. *)
Fixpoint unhex (s : str) : option bytes :=
  match s with
  | [] => Some []
  | hi :: lo :: s' =>
      match unhex_digit hi, unhex_digit lo, unhex s' with
      | Some h, Some l, Some b => Some (byte_of_Z (16 * h + l) :: b)
      | _, _, _ => None
      end
  | [_] => None
  end.

Lemma unhex_hex_digit n : 0 <= n < 16 -> unhex_digit (hex_digit n) = Some n.
Proof.
  intros Hn.
  assert (H : exists k, (k < 16)%nat /\ n = Z.of_nat k)
    by (exists (Z.to_nat n); lia).
  destruct H as (k & Hk & ->).
  do 16 (destruct k as [|k]; [reflexivity|]). lia.
Qed.

Lemma unhex_hhex b : unhex (hhex b) = Some b.
Proof.
  induction b as [|x b IH]; [reflexivity|].
  change (hhex (x :: b)) with
    (hex_digit (byte_to_Z x / 16) :: hex_digit (byte_to_Z x mod 16) :: hhex b).
  pose proof (byte_to_Z_range x) as Hx.
  cbn [unhex]. rewrite !unhex_hex_digit, IH.
  - rewrite <- Z.div_mod by lia. rewrite byte_of_to_Z. reflexivity.
  - apply Z.mod_pos_bound. lia.
  - split; [apply Z.div_pos; lia | apply Z.div_lt_upper_bound; lia].
Qed.

Lemma hhex_inj (a b : bytes) : hhex a = hhex b -> a = b.
Proof.
  intros H. pose proof (unhex_hhex a) as Ha.
  rewrite H, unhex_hhex in Ha. congruence.
Qed.

(** X2: [hhex] loses nothing: byte strings with the same hex form are
    equal, and the hex form has two characters per byte. *)
Theorem hhex_lossless (a b : bytes) :
  hhex a = hhex b -> a = b /\ length (hhex a) = (2 * length b)%nat.
Proof.
  intros H. pose proof (hhex_inj _ _ H) as E.
  split; [exact E | rewrite hhex_length, E; reflexivity].
Qed.

Lemma hhex_lossless_witness :
  [xa5; x0f] = [xa5; x0f] /\ length (hhex [xa5; x0f]) = (2 * length [xa5; x0f])%nat.
Proof. apply (hhex_lossless [xa5; x0f] [xa5; x0f]). reflexivity. Defined.

(** ** The Merkle builder: totality, size, height, duplicated last leaf *)

Lemma merkle_root_ok (leaves : list bytes) : exists root, merkle_root leaves = Ok root.
Proof.
  destruct leaves as [|a l]; [exists (sha3 []); reflexivity|].
  destruct (merkle_root_iter (length (a :: l)) (a :: l) eq_refl)
    as (k & root & H & _); [cbn [length]; lia|].
  exists root. exact H.
Qed.

Lemma pair_up_all (P : bytes -> Prop) (layer : list bytes) :
  (forall a b, P (sha3 (a ++ b))) -> Forall P (pair_up layer).
Proof.
  intros HP. induction layer as [| a | a b l IH] using pair_ind; cbn [pair_up];
    repeat constructor; auto.
Qed.

Lemma merkle_root_all (P : bytes -> Prop) :
  (forall a b, P (sha3 (a ++ b))) ->
  forall n (leaves : list bytes) root,
    length leaves = n -> (0 < n)%nat -> Forall P leaves ->
    merkle_root leaves = Ok root -> P root.
Proof.
  intros HP. induction n as [n IH] using lt_wf_ind.
  intros leaves root Hlen Hpos Hall Hroot.
  destruct leaves as [|a [|b rest]]; [cbn in Hlen; lia| |].
  - rewrite merkle_root_single in Hroot. injection Hroot as <-.
    inversion Hall; assumption.
  - rewrite merkle_root_step in Hroot.
    apply (IH (length (pair_up (a :: b :: rest)))) with
      (leaves := pair_up (a :: b :: rest)); try assumption.
    + rewrite pair_up_length, Hlen. subst n. cbn [length].
      apply Nat.Div0.div_lt_upper_bound; lia.
    + reflexivity.
    + cbn [pair_up length]. lia.
    + apply pair_up_all. exact HP.
Qed.

Lemma merkle_root_32 (leaves : list bytes) (root : bytes) :
  Forall (fun h => length h = 32%nat) leaves ->
  merkle_root leaves = Ok root -> length root = 32%nat.
Proof.
  intros Hall Hroot. destruct leaves as [|a l].
  - injection Hroot as <-. apply sha3_has_32.
  - apply (merkle_root_all (fun h => length h = 32%nat)
             (fun a b => sha3_has_32 (a ++ b))
             (length (a :: l)) (a :: l) root eq_refl);
      [cbn [length]; lia | exact Hall | exact Hroot].
Qed.

(** X3: [merkle_root] never raises: no index is ever out of range; and
    when every leaf has 32 bytes (or there is no leaf) the root has 32
    bytes. *)
Theorem merkle_root_never_raises (leaves : list bytes) :
  exists root, merkle_root leaves = Ok root /\
               (Forall (fun h => length h = 32%nat) leaves -> length root = 32%nat).
Proof.
  destruct (merkle_root_ok leaves) as [root Hroot].
  exists root. split; [exact Hroot|]. intros Hall.
  apply (merkle_root_32 leaves root Hall Hroot).
Qed.

Lemma pair_up_duplicate_last (l : list bytes) (x : bytes) :
  Nat.even (length l) = true -> pair_up (l ++ [x]) = pair_up (l ++ [x; x]).
Proof.
  induction l as [| a | a b l IH] using pair_ind; intros He.
  - reflexivity.
  - discriminate He.
  - cbn [app pair_up]. f_equal. apply IH.
    cbn [length] in He. rewrite Nat.even_succ_succ in He. exact He.
Qed.

(** X4: a list of odd length, three leaves or more, has the root of the
    list with its last leaf repeated once more: [A, B, C] and [A, B, C, C]
    cannot be told apart by their roots. *)
Theorem merkle_root_duplicate_last (l : list bytes) (x : bytes) :
  (0 < length l)%nat -> Nat.even (length l) = true ->
  merkle_root (l ++ [x]) = merkle_root (l ++ [x; x]).
Proof.
  intros Hpos He.
  destruct l as [|a [|b l]]; [cbn in Hpos; lia | discriminate He |].
  cbn [app]. rewrite !merkle_root_step.
  change (a :: b :: l ++ [x]) with ((a :: b :: l) ++ [x]).
  change (a :: b :: l ++ [x; x]) with ((a :: b :: l) ++ [x; x]).
  rewrite (pair_up_duplicate_last (a :: b :: l) x He). reflexivity.
Qed.

Lemma merkle_root_duplicate_last_witness :
  merkle_root ([zero_root; ff_root] ++ [zero_root]) =
  merkle_root ([zero_root; ff_root] ++ [zero_root; zero_root]).
Proof.
  apply (merkle_root_duplicate_last [zero_root; ff_root] zero_root).
  - simpl. lia.
  - reflexivity.
Defined.

Lemma half_up_pow n k :
  (((n + 2 ^ k - 1) / 2 ^ k + 1) / 2 = (n + 2 ^ S k - 1) / 2 ^ S k)%nat.
Proof.
  assert (Hb : (2 ^ k <> 0)%nat) by (apply Nat.pow_nonzero; lia).
  rewrite <- (Nat.div_add _ 1 _ Hb), Nat.Div0.div_div.
  replace (2 ^ S k)%nat with (2 ^ k * 2)%nat by (cbn [Nat.pow]; lia).
  f_equal. lia.
Qed.

Lemma iter_pair_up_length (leaves : list bytes) k :
  length (Nat.iter k pair_up leaves) =
  ((length leaves + 2 ^ k - 1) / 2 ^ k)%nat.
Proof.
  induction k as [|k IH].
  - cbn [Nat.iter nat_rect Nat.pow]. rewrite Nat.div_1_r. lia.
  - change (Nat.iter (S k) pair_up leaves)
      with (pair_up (Nat.iter k pair_up leaves)).
    rewrite pair_up_length, IH. apply half_up_pow.
Qed.

(** X5: the number of layers hashed for [n] leaves is the least [k] with
    [n <= 2 ^ k]. *)
Theorem merkle_root_height (leaves : list bytes) :
  (0 < length leaves)%nat ->
  exists k root,
    merkle_root leaves = Ok root /\
    Nat.iter k pair_up leaves = [root] /\
    (length leaves <= 2 ^ k)%nat /\
    forall j, (j < k)%nat -> (2 ^ j < length leaves)%nat.
Proof.
  intros Hpos.
  destruct (merkle_root_iter (length leaves) leaves eq_refl Hpos)
    as (k & root & Hroot & Hiter & Hbig).
  exists k, root. split; [exact Hroot|]. split; [exact Hiter|].
  split.
  - pose proof (iter_pair_up_length leaves k) as H. rewrite Hiter in H.
    cbn [length] in H.
    assert (Hb : (2 ^ k <> 0)%nat) by (apply Nat.pow_nonzero; lia).
    pose proof (Nat.div_mod_eq (length leaves + 2 ^ k - 1) (2 ^ k)) as Hd.
    pose proof (Nat.mod_upper_bound (length leaves + 2 ^ k - 1) (2 ^ k) Hb).
    rewrite <- H in Hd. lia.
  - intros j Hj. specialize (Hbig j Hj). rewrite iter_pair_up_length in Hbig.
    pose proof (Nat.Div0.mul_div_le (length leaves + 2 ^ j - 1) (2 ^ j)) as Hd.
    assert (Hb : (2 ^ j <> 0)%nat) by (apply Nat.pow_nonzero; lia).
    nia.
Qed.

Lemma merkle_root_height_witness :
  exists k root,
    merkle_root [zero_root; ff_root; zero_root] = Ok root /\
    Nat.iter k pair_up [zero_root; ff_root; zero_root] = [root] /\
    (length [zero_root; ff_root; zero_root] <= 2 ^ k)%nat /\
    forall j, (j < k)%nat -> (2 ^ j < length [zero_root; ff_root; zero_root])%nat.
Proof.
  apply (merkle_root_height [zero_root; ff_root; zero_root]). simpl. lia.
Defined.

Lemma merkle_root_never_raises_witness :
  exists root, merkle_root [zero_root] = Ok root /\
               (Forall (fun h => length h = 32%nat) [zero_root] -> length root = 32%nat).
Proof. apply (merkle_root_never_raises [zero_root]). Defined.

(** ** Integers and bytes *)

Lemma int_from_bytes_big_snoc l x :
  int_from_bytes_big (l ++ [x]) = int_from_bytes_big l * 256 + byte_to_Z x.
Proof. unfold int_from_bytes_big. rewrite fold_left_app. reflexivity. Qed.

Lemma int_from_bytes_big_range b :
  0 <= int_from_bytes_big b < 256 ^ Z.of_nat (length b).
Proof.
  induction b as [|x b IH] using rev_ind; [cbn; lia|].
  rewrite int_from_bytes_big_snoc, length_app. cbn [length].
  replace (Z.of_nat (length b + 1)) with (Z.of_nat (length b) + 1) by lia.
  rewrite Z.pow_add_r by lia. pose proof (byte_to_Z_range x). nia.
Qed.

Lemma be_bytes_length len : forall n, length (be_bytes len n) = len.
Proof.
  induction len as [|len IH]; intros n; cbn [be_bytes]; [reflexivity|].
  rewrite length_app, IH. cbn [length]. lia.
Qed.

Lemma int_from_be_bytes len : forall n,
  int_from_bytes_big (be_bytes len n) = n mod 256 ^ Z.of_nat len.
Proof.
  induction len as [|len IH]; intros n.
  - cbn. rewrite Z.mod_1_r. reflexivity.
  - cbn [be_bytes]. rewrite int_from_bytes_big_snoc, IH, byte_to_of_Z.
    replace (Z.of_nat (S len)) with (1 + Z.of_nat len) by lia.
    rewrite Z.pow_add_r by lia. change (256 ^ 1) with 256.
    assert (Hp : 0 < 256 ^ Z.of_nat len) by (apply Z.pow_pos_nonneg; lia).
    rewrite (Z.rem_mul_r n 256 (256 ^ Z.of_nat len)) by lia.
    rewrite Z.mod_mod by lia. lia.
Qed.

(** X6: [int_mod] raises only for a zero modulus; for a positive modulus
    its value is the residue of the big-endian integer, in [0, m); and
    that integer is below [256 ^ len(b)]. *)
Theorem int_mod_range (b : bytes) (m : Z) :
  int_mod b 0 = Raise ZeroDivisionError /\
  (0 < m ->
   exists r, int_mod b m = Ok r /\ 0 <= r < m /\
             exists q, int_from_bytes_big b = q * m + r /\
                       0 <= q * m + r < 256 ^ Z.of_nat (length b)).
Proof.
  split; [reflexivity|]. intros Hm.
  exists (int_from_bytes_big b mod m). unfold int_mod.
  destruct (Z.eqb_spec m 0); [lia|].
  split; [reflexivity|]. split; [apply Z.mod_pos_bound; exact Hm|].
  exists (int_from_bytes_big b / m).
  pose proof (Z.div_mod (int_from_bytes_big b) m) as Hd.
  pose proof (int_from_bytes_big_range b) as Hr.
  split; [lia|]. rewrite (Z.mul_comm _ m), <- Hd by lia. exact Hr.
Qed.

Lemma int_mod_range_witness :
  exists r, int_mod [x01; x02] 19 = Ok r /\ 0 <= r < 19 /\
            exists q, int_from_bytes_big [x01; x02] = q * 19 + r /\
                      0 <= q * 19 + r < 256 ^ Z.of_nat (length [x01; x02]).
Proof. apply (proj2 (int_mod_range [x01; x02] 19)). lia. Defined.

(** ** More on the nonce search *)

Lemma to_bytes_big_inv n len b :
  to_bytes_big n len = Ok b -> 0 <= n < 256 ^ Z.of_nat len /\ b = be_bytes len n.
Proof.
  unfold to_bytes_big.
  destruct (Z.ltb_spec n 0); [discriminate|].
  destruct (Z.leb_spec (256 ^ Z.of_nat len) n); [discriminate|].
  cbn [orb]. intros [= <-]. split; [lia | reflexivity].
Qed.

Lemma search_nonce_inv root todo : forall nonce n d,
  search_nonce root nonce todo = Ok (n, d) ->
  nonce <= n < nonce + Z.of_nat todo /\ 0 <= n < 2 ^ 64 /\
  d = seal_digest root n /\ seals root n /\
  forall k, nonce <= k < n -> ~ seals root k.
Proof.
  induction todo as [|todo IH]; intros nonce n d H; cbn [search_nonce] in H.
  - discriminate H.
  - destruct (to_bytes_big nonce 8) as [nb|] eqn:Hnb; cbn [bind] in H;
      [|discriminate H].
    apply to_bytes_big_inv in Hnb as [Hrange ->].
    change (256 ^ Z.of_nat 8) with (2 ^ 64) in Hrange.
    cbv zeta in H. fold (seal_digest root nonce) in H.
    unfold int_mod in H. change (19 =? 0) with false in H. cbn [bind] in H.
    destruct (Z.eqb_spec (int_from_bytes_big (seal_digest root nonce) mod 19) 0)
      as [Hz|Hnz].
    + injection H as <- <-.
      split; [lia|]. split; [lia|]. split; [reflexivity|]. split; [exact Hz|].
      intros k Hk. lia.
    + apply IH in H as (Hn & H64 & Hd & Hs & Hmin).
      split; [lia|]. split; [lia|]. split; [exact Hd|]. split; [exact Hs|].
      intros k Hk. destruct (Z.eq_dec k nonce) as [->|]; [exact Hnz|].
      apply Hmin. lia.
Qed.

(** X7: whatever the limit, a pair [(n, digest)] returned by
    [find_nonce_for_mod19] has [0 <= n < limit], [n] below [2 ^ 64],
    [digest] the 32-byte SHA3-256 of the root followed by the 8 big-endian
    bytes of [n], a multiple of 19, and no smaller nonce has such a digest. *)
Theorem find_nonce_result (root : bytes) (limit n : Z) (d : bytes) :
  find_nonce_for_mod19 root limit = Ok (n, d) ->
  0 <= n < limit /\ n < 2 ^ 64 /\
  d = sha3 (root ++ be_bytes 8 n) /\ length d = 32%nat /\
  int_from_bytes_big d mod 19 = 0 /\
  forall k, 0 <= k < n -> int_from_bytes_big (sha3 (root ++ be_bytes 8 k)) mod 19 <> 0.
Proof.
  intros H. apply search_nonce_inv in H as (Hn & H64 & -> & Hs & Hmin).
  split; [lia|]. split; [lia|]. split; [reflexivity|].
  split; [apply sha3_has_32|]. split; [exact Hs | exact Hmin].
Qed.

Lemma find_nonce_result_witness :
  0 <= 1 < default_limit /\ 1 < 2 ^ 64 /\
  seal_digest ff_root 1 = sha3 (ff_root ++ be_bytes 8 1) /\
  length (seal_digest ff_root 1) = 32%nat /\
  int_from_bytes_big (seal_digest ff_root 1) mod 19 = 0 /\
  forall k, 0 <= k < 1 ->
    int_from_bytes_big (sha3 (ff_root ++ be_bytes 8 k)) mod 19 <> 0.
Proof.
  apply (find_nonce_result ff_root default_limit 1 (seal_digest ff_root 1)).
  vm_compute. reflexivity.
Defined.

Lemma search_nonce_more root todo : forall nonce p extra,
  search_nonce root nonce todo = Ok p ->
  search_nonce root nonce (todo + extra) = Ok p.
Proof.
  induction todo as [|todo IH]; intros nonce p extra H; [discriminate H|].
  cbn [Nat.add search_nonce] in *.
  destruct (to_bytes_big nonce 8) as [nb|]; cbn [bind] in *; [|discriminate H].
  cbv zeta in *.
  destruct (int_mod (sha3 (root ++ nb)) 19) as [r|]; cbn [bind] in *;
    [|discriminate H].
  destruct (r =? 0); [exact H | apply IH; exact H].
Qed.

(** X8: raising the limit never changes a result: a pair found within
    [limit] is the pair found within any larger limit. *)
Theorem find_nonce_limit_monotone (root : bytes) (limit limit' : Z) (p : Z * bytes) :
  find_nonce_for_mod19 root limit = Ok p -> limit <= limit' ->
  find_nonce_for_mod19 root limit' = Ok p.
Proof.
  unfold find_nonce_for_mod19. intros H Hle.
  replace (Z.to_nat limit') with (Z.to_nat limit + (Z.to_nat limit' - Z.to_nat limit))%nat
    by lia.
  apply search_nonce_more. exact H.
Qed.

Lemma find_nonce_limit_monotone_witness :
  find_nonce_for_mod19 ff_root default_limit = Ok (1, seal_digest ff_root 1).
Proof.
  apply (find_nonce_limit_monotone ff_root 2 default_limit).
  - vm_compute. reflexivity.
  - unfold default_limit. lia.
Defined.

(** X9: the candidates are hashed under different messages: two nonces
    with an 8-byte encoding that give the same message [root || nonce] are
    the same nonce, and each message is 8 bytes longer than the root. *)
Theorem nonce_messages_distinct (root : bytes) (n1 n2 : Z) (b1 b2 : bytes) :
  to_bytes_big n1 8 = Ok b1 -> to_bytes_big n2 8 = Ok b2 ->
  root ++ b1 = root ++ b2 ->
  n1 = n2 /\ length (root ++ b1) = (length root + 8)%nat.
Proof.
  intros H1 H2 Heq.
  apply to_bytes_big_inv in H1 as [Hr1 ->].
  apply to_bytes_big_inv in H2 as [Hr2 ->].
  apply app_inv_head in Heq. split.
  - pose proof (int_from_be_bytes 8 n1) as E1.
    pose proof (int_from_be_bytes 8 n2) as E2.
    rewrite Heq in E1. rewrite E1 in E2.
    rewrite !Z.mod_small in E2 by exact Hr1 || exact Hr2. lia.
  - rewrite length_app, be_bytes_length. reflexivity.
Qed.

Lemma nonce_messages_distinct_witness :
  7 = 7 /\ length (zero_root ++ be_bytes 8 7) = (length zero_root + 8)%nat.
Proof.
  apply (nonce_messages_distinct zero_root 7 7 (be_bytes 8 7) (be_bytes 8 7));
    reflexivity.
Defined.

(** ** More on the manifest builders *)

Lemma manifest_entry_inv unit_name verses e :
  manifest_entry unit_name verses = Ok e ->
  exists hs root nonce sealed,
    traverse (fun v => let* b := encode_utf8 v in Ok (sha3 b)) verses = Ok hs /\
    merkle_root hs = Ok root /\
    find_nonce_for_mod19 root default_limit = Ok (nonce, sealed) /\
    e = {| name := unit_name; verse_count := length verses;
           verse_hashes_hex := map hhex hs; root_hex := hhex root;
           nonce_uint64 := nonce; sealed_root_hex := hhex sealed;
           sealed_root_mod19 := 0 |}.
Proof.
  unfold manifest_entry. intros H.
  apply bind_ok in H as (hs & Hhs & H).
  apply bind_ok in H as (root & Hroot & H).
  apply bind_ok in H as ([nonce sealed] & Hfound & H).
  apply bind_ok in H as (r & Hr & [= <-]).
  rewrite (find_nonce_sound _ _ _ _ Hfound) in Hr. injection Hr as <-.
  exists hs, root, nonce, sealed. repeat split; assumption.
Qed.

Lemma leaf_digests_32 verses hs :
  traverse (fun v => let* b := encode_utf8 v in Ok (sha3 b)) verses = Ok hs ->
  Forall (fun h => length h = 32%nat) hs.
Proof.
  revert hs; induction verses as [|v verses IH]; intros hs H; cbn [traverse] in H.
  - injection H as <-. constructor.
  - apply bind_ok in H as (h & Hh & H).
    apply bind_ok in H as (hs' & Hhs & [= <-]).
    apply bind_ok in Hh as (b & _ & [= <-]).
    constructor; [apply sha3_has_32 | apply IH; exact Hhs].
Qed.

Lemma map_hhex_inj (a b : list bytes) : map hhex a = map hhex b -> a = b.
Proof.
  revert b; induction a as [|x a IH]; intros [|y b] H; try discriminate H.
  - reflexivity.
  - injection H as Hxy Hab. f_equal; [|apply IH; exact Hab].
    apply (hhex_inj _ _ Hxy).
Qed.

Lemma filter_split_length {A} (f : A -> bool) l :
  (length (List.filter f l) + length (List.filter (fun a => negb (f a)) l)
   = length l)%nat.
Proof.
  induction l as [|a l IH]; [reflexivity|].
  cbn [List.filter]. destruct (f a); cbn [negb length]; lia.
Qed.

Lemma traverse_raise {A B} (f : A -> result B) l :
  Exists (fun a => exists e, f a = Raise e) l -> exists e, traverse f l = Raise e.
Proof.
  induction 1 as [a l [e He]|a l _ [e IH]]; cbn [traverse].
  - rewrite He. exists e. reflexivity.
  - destruct (f a) as [b|e']; cbn [bind]; [|exists e'; reflexivity].
    rewrite IH. exists e. reflexivity.
Qed.

(** *** The keys of [chapters] stay distinct *)

Lemma setdefault_append_keys {V} (d : list (str * list V)) key x :
  (In key (map fst d) /\ map fst (setdefault_append d key x) = map fst d) \/
  (~ In key (map fst d) /\ map fst (setdefault_append d key x) = map fst d ++ [key]).
Proof.
  induction d as [|[k v] d IH]; cbn [setdefault_append map fst].
  - right. split; [intros []|reflexivity].
  - unfold str_eqb. destruct (bool_decide_reflect (k = key)) as [->|Hne].
    + left. split; [left; reflexivity | reflexivity].
    + cbn [map fst]. destruct IH as [[Hin ->]|[Hnin ->]].
      * left. split; [right; exact Hin | reflexivity].
      * right. split; [|reflexivity]. intros [Hk|Hk]; [exact (Hne Hk) | exact (Hnin Hk)].
Qed.

Definition total_verses (d : list (str * list str)) : nat :=
  list_sum (map (fun kv => length (snd kv)) d).

Lemma setdefault_append_total d key x :
  total_verses (setdefault_append d key x) = S (total_verses d).
Proof.
  unfold total_verses.
  induction d as [|[k v] d IH];
    cbn [setdefault_append map list_sum fold_right snd length].
  - reflexivity.
  - destruct (str_eqb k key); cbn [map list_sum fold_right snd].
    + rewrite length_app. cbn [length]. lia.
    + unfold list_sum in IH. rewrite IH. lia.
Qed.

(** A line that contributes a verse: stripped, it contains a [|]. *)
Definition is_verse_line (line : str) : bool :=
  match cut 124 (strip line) with
  | (_, Some _) => true
  | (_, None) => false
  end.

Section QuranParsing.

Variable nfc : str -> str.

Lemma add_line_keys d line :
  List.NoDup (map fst d) -> List.NoDup (map fst (add_line nfc d line)).
Proof.
  intros Hd. unfold add_line.
  destruct (cut 124 (strip line)) as [ref [verse|]]; [|exact Hd].
  destruct (setdefault_append_keys d (fst (cut 58 ref)) (nfc verse))
    as [[_ ->]|[Hnin ->]]; [exact Hd|].
  apply List.NoDup_app; [exact Hd | repeat constructor; intros [] |].
  intros k Hk [<-|[]]. exact (Hnin Hk).
Qed.

Lemma add_line_total d line :
  total_verses (add_line nfc d line) =
  (total_verses d + if is_verse_line line then 1 else 0)%nat.
Proof.
  unfold add_line, is_verse_line.
  destruct (cut 124 (strip line)) as [ref [verse|]]; [|lia].
  rewrite setdefault_append_total. lia.
Qed.

Lemma fold_add_line_keys lines : forall d,
  List.NoDup (map fst d) ->
  List.NoDup (map fst (fold_left (add_line nfc) lines d)).
Proof.
  induction lines as [|line lines IH]; intros d Hd; [exact Hd|].
  cbn [fold_left]. apply IH, add_line_keys, Hd.
Qed.

Lemma fold_add_line_total lines : forall d,
  total_verses (fold_left (add_line nfc) lines d) =
  (total_verses d + length (List.filter is_verse_line lines))%nat.
Proof.
  induction lines as [|line lines IH]; intros d; cbn [fold_left List.filter].
  - cbn [length]. lia.
  - rewrite IH, add_line_total. destruct (is_verse_line line); cbn [length]; lia.
Qed.

Lemma parse_chapters_keys text : List.NoDup (map fst (parse_chapters nfc text)).
Proof. apply fold_add_line_keys. constructor. Qed.

Lemma parse_chapters_total text :
  total_verses (parse_chapters nfc text) =
  length (List.filter is_verse_line (splitlines text)).
Proof. unfold parse_chapters. rewrite fold_add_line_total. reflexivity. Qed.

End QuranParsing.

Lemma dict_get_keys {V} (d : list (str * V)) :
  List.NoDup (map fst d) ->
  map (fun k => dict_get d k) (map fst d) = map (fun kv => Some (snd kv)) d.
Proof.
  induction d as [|[k v] d IH]; intros Hd; [reflexivity|].
  cbn [map fst snd] in *. inversion Hd as [|? ? Hnin Hd']; subst.
  cbn [dict_get]. unfold str_eqb at 1.
  rewrite bool_decide_eq_true_2 by reflexivity. f_equal.
  rewrite <- (IH Hd'). apply map_ext_in. intros k' Hk'.
  unfold str_eqb. rewrite bool_decide_eq_false_2; [reflexivity|].
  intros ->. exact (Hnin Hk').
Qed.

Lemma list_sum_perm l l' : Permutation l l' -> list_sum l = list_sum l'.
Proof. unfold list_sum. induction 1; cbn [fold_right]; lia. Qed.

(** Induction on decoded JSON, through the items of arrays. *)
Lemma json_strings_ind (P : json -> Prop) :
  P JNull -> (forall b, P (JBool b)) -> (forall l, P (JNumber l)) ->
  (forall s, P (JString s)) ->
  (forall items, Forall P items -> P (JArray items)) ->
  (forall fields, P (JObject fields)) ->
  forall x, P x.
Proof.
  intros Hnull Hbool Hnum Hstr Harr Hobj.
  fix IH 1. intros [| b | l | s | items | fields].
  - exact Hnull.
  - apply Hbool.
  - apply Hnum.
  - apply Hstr.
  - apply Harr. induction items as [|x items IHitems]; constructor;
      [apply IH | exact IHitems].
  - apply Hobj.
Qed.

(** [s] is a string of [x]: [x] itself, or a string of an item of the
    list [x], at any depth. *)
Inductive string_of (s : str) : json -> Prop :=
| string_here : string_of s (JString s)
| string_item (items : list json) (x : json) :
    In x items -> string_of s x -> string_of s (JArray items).

Lemma flatten_strings nfc (x : json) : forall v,
  In v (flatten nfc x) -> exists s, v = nfc s /\ string_of s x.
Proof.
  induction x as [| | | s | items IH | fields] using json_strings_ind;
    intros v Hin; cbn [flatten] in Hin; try (destruct Hin; fail).
  - destruct Hin as [<-|[]]. exists s. split; [reflexivity | constructor].
  - apply in_flat_map in Hin as (x & Hx & Hvx).
    rewrite List.Forall_forall in IH.
    destruct (IH x Hx v Hvx) as (s & -> & Hs).
    exists s. split; [reflexivity | exact (string_item s items x Hx Hs)].
Qed.

Lemma strings_flatten nfc (x : json) s :
  string_of s x -> In (nfc s) (flatten nfc x).
Proof.
  induction 1 as [|items x Hx _ IH]; cbn [flatten].
  - left. reflexivity.
  - apply in_flat_map. exists x. split; assumption.
Qed.

Section BuilderExtras.

Variable nfc : str -> str.
Variable py_int : str -> result Z.
Variable quran_text : result str.
Variable sefaria_data : str -> result json.

(** An entry of either manifest is the entry of a unit with a verse. *)
Lemma built_entry (sidrot_list out : list str) (m : manifest) (e : entry) :
  build_quran_manifest nfc py_int quran_text = Ok m \/
  build_torah_manifest nfc sefaria_data sidrot_list = (out, Ok m) ->
  In e (units m) ->
  exists unit_name verses,
    verses <> [] /\ manifest_entry unit_name verses = Ok e.
Proof.
  intros [Hq|Ht] He.
  - apply build_quran_inv in Hq as (text & keyed & _ & _ & HF).
    destruct (Forall2_in_r _ _ _ _ HF He) as (sura & _ & verses & Hv & Hm).
    exists (lit "Sura " ++ sura), verses. split; [|exact Hm].
    apply (parse_chapters_nonempty _ _ _ _ Hv).
  - apply build_torah_inv in Ht as [HF _].
    destruct (Forall2_in_r _ _ _ _ HF He) as (ref & _ & verses & _ & Hne & Hm).
    exists ref, verses. split; assumption.
Qed.

(** X10: an entry can be checked against itself.  The byte strings whose
    hex forms are its [verse_hashes_hex] have the Merkle root whose hex
    form is its root field; its sealed digest is the SHA3-256 of that root
    followed by the 8 big-endian bytes of its nonce; the nonce is below the
    default limit and no smaller nonce seals the root. *)
Theorem entry_recomputable
  (sidrot_list out : list str) (m : manifest) (e : entry) (hs : list bytes) :
  build_quran_manifest nfc py_int quran_text = Ok m \/
  build_torah_manifest nfc sefaria_data sidrot_list = (out, Ok m) ->
  In e (units m) ->
  map hhex hs = verse_hashes_hex e ->
  exists root,
    merkle_root hs = Ok root /\
    root_hex e = hhex root /\
    sealed_root_hex e = hhex (sha3 (root ++ be_bytes 8 (nonce_uint64 e))) /\
    0 <= nonce_uint64 e < 2000000 /\
    forall k, 0 <= k < nonce_uint64 e ->
      int_from_bytes_big (sha3 (root ++ be_bytes 8 k)) mod 19 <> 0.
Proof.
  intros Hb He Hhs.
  destruct (built_entry _ _ _ _ Hb He) as (nm & verses & _ & Hm).
  apply manifest_entry_inv in Hm as (hs' & root & nonce & sealed & _ & Hroot & Hf & ->).
  cbn [verse_hashes_hex root_hex sealed_root_hex nonce_uint64] in *.
  apply map_hhex_inj in Hhs as ->.
  apply search_nonce_inv in Hf as (Hn & _ & -> & _ & Hmin).
  exists root. split; [exact Hroot|]. split; [reflexivity|].
  split; [reflexivity|]. split; [|exact Hmin].
  change (Z.of_nat (Z.to_nat default_limit)) with 2000000 in Hn. lia.
Qed.

(** X11: the fields of an entry have their fixed sizes: the root, the
    sealed digest and every verse hash are 64 lowercase hexadecimal
    characters, and [verse_count] is at least 1. *)
Theorem entry_field_sizes
  (sidrot_list out : list str) (m : manifest) (e : entry) :
  build_quran_manifest nfc py_int quran_text = Ok m \/
  build_torah_manifest nfc sefaria_data sidrot_list = (out, Ok m) ->
  In e (units m) ->
  Forall (fun h => length h = 64%nat /\ Forall lower_hex h)
         (root_hex e :: sealed_root_hex e :: verse_hashes_hex e) /\
  (1 <= verse_count e)%nat.
Proof.
  intros Hb He.
  destruct (built_entry _ _ _ _ Hb He) as (nm & verses & Hne & Hm).
  apply manifest_entry_inv in Hm as (hs & root & nonce & sealed & Hhs & Hroot & Hf & ->).
  cbn [verse_hashes_hex root_hex sealed_root_hex verse_count].
  pose proof (leaf_digests_32 _ _ Hhs) as H32.
  pose proof (merkle_root_32 hs root H32 Hroot) as Hr.
  apply search_nonce_inv in Hf as (_ & _ & -> & _ & _).
  split.
  - constructor; [|constructor].
    + split; [rewrite hhex_length, Hr; reflexivity | apply hhex_lowercase].
    + split; [|apply hhex_lowercase].
      rewrite hhex_length. unfold seal_digest. rewrite sha3_has_32. reflexivity.
    + apply List.Forall_forall. intros h Hh.
      apply in_map_iff in Hh as (b & <- & Hb32).
      rewrite List.Forall_forall in H32.
      split; [rewrite hhex_length, (H32 _ Hb32); reflexivity | apply hhex_lowercase].
  - destruct verses; [congruence | cbn [length]; lia].
Qed.

(** X12: no chapter appears twice: the names of the entries of the Qur'an
    manifest are pairwise distinct, one per chapter key of the text. *)
Theorem quran_names_distinct (m : manifest) :
  build_quran_manifest nfc py_int quran_text = Ok m ->
  List.NoDup (map name (units m)) /\
  exists text, quran_text = Ok text /\
               length (units m) = length (parse_chapters nfc text).
Proof.
  intros Hq. apply build_quran_inv in Hq as (text & keyed & Ht & Hk & HF).
  destruct (keyed_suras_keys _ _ _ _ Hk) as [Hkeys _].
  assert (Hperm : Permutation (map snd (sort_by_key keyed))
                              (map fst (parse_chapters nfc text))).
  { rewrite <- Hkeys. apply Permutation_map, sort_by_key_perm. }
  assert (Hnames : map name (units m) =
                   map (fun s => lit "Sura " ++ s) (map snd (sort_by_key keyed))).
  { apply Forall2_map_eq. eapply Forall2_weaken; [|exact HF].
    intros sura e (verses & _ & Hm). apply (manifest_entry_spec _ _ _ Hm). }
  split.
  - rewrite Hnames. apply List.NoDup_map_inv with (f := fun s => skipn 5 s).
    rewrite map_map. cbn [lit]. rewrite map_id.
    apply (Permutation_NoDup (Permutation_sym Hperm)), parse_chapters_keys.
  - exists text. split; [exact Ht|].
    rewrite <- (length_map name), Hnames, !length_map.
    rewrite (Permutation_length (sort_by_key_perm keyed)).
    rewrite <- (length_map snd keyed), Hkeys, length_map. reflexivity.
Qed.

(** X13: every verse line lands in exactly one entry: the verse counts of
    the Qur'an manifest add up to the number of lines of the text that,
    stripped, contain a [|]. *)
Theorem quran_verses_conserved (m : manifest) :
  build_quran_manifest nfc py_int quran_text = Ok m ->
  exists text,
    quran_text = Ok text /\
    list_sum (map verse_count (units m)) =
    length (List.filter is_verse_line (splitlines text)).
Proof.
  intros Hq. apply build_quran_inv in Hq as (text & keyed & Ht & Hk & HF).
  exists text. split; [exact Ht|].
  destruct (keyed_suras_keys _ _ _ _ Hk) as [Hkeys _].
  set (chapters := parse_chapters nfc text) in *.
  set (count := fun s : str => length (default [] (dict_get chapters s))).
  assert (Hcounts : map verse_count (units m) =
                    map count (map snd (sort_by_key keyed))).
  { apply Forall2_map_eq. eapply Forall2_weaken; [|exact HF].
    intros sura e (verses & Hv & Hm). unfold count. rewrite Hv.
    apply (manifest_entry_spec _ _ _ Hm). }
  rewrite Hcounts, <- (parse_chapters_total nfc text). fold chapters.
  rewrite (list_sum_perm _ (map count (map fst chapters))).
  - unfold total_verses. f_equal. unfold count.
    rewrite <- (map_map (fun k => dict_get chapters k)
                        (fun o => length (default [] o))).
    rewrite dict_get_keys by apply parse_chapters_keys.
    rewrite map_map. reflexivity.
  - apply Permutation_map. rewrite <- Hkeys.
    apply Permutation_map, sort_by_key_perm.
Qed.

(** X14: a chapter key that [int] rejects makes the Qur'an build raise; no
    manifest is returned. *)
Theorem quran_bad_key_raises (text : str) :
  quran_text = Ok text ->
  Exists (fun key => exists e, py_int key = Raise e)
         (map fst (parse_chapters nfc text)) ->
  exists e, build_quran_manifest nfc py_int quran_text = Raise e.
Proof.
  intros Ht Hbad. unfold build_quran_manifest, sorted_by_int.
  rewrite Ht. cbn [bind].
  destruct (traverse_raise (fun x => let* k := py_int x in Ok (k, x))
              (map fst (parse_chapters nfc text))) as [e He].
  - eapply List.Exists_impl; [|exact Hbad].
    intros key [e He]. exists e. rewrite He. reflexivity.
  - exists e. rewrite He. reflexivity.
Qed.

(** X15: in a finished Torah build every reference is accounted for once:
    the entries and the warning lines together are as many as the
    references. *)
Theorem torah_references_accounted (sidrot_list out : list str) (m : manifest) :
  build_torah_manifest nfc sefaria_data sidrot_list = (out, Ok m) ->
  (length (units m) + length out = length sidrot_list)%nat.
Proof.
  intros Hb. apply build_torah_inv in Hb as [HF ->].
  rewrite <- (Forall2_length _ _ _ HF), length_map.
  apply filter_split_length.
Qed.

(** X16: a reference whose fetch raises ends the Torah build with that
    exception: the entries made before it are not returned and the
    references after it are not processed. *)
Theorem torah_fetch_failure_aborts
  (before after : list str) (ref : str) (e : exn)
  (out1 : list str) (entries1 : list entry) :
  torah_loop nfc sefaria_data before [] [] = (out1, Ok entries1) ->
  fetch_sefaria_ref nfc sefaria_data ref = Raise e ->
  build_torah_manifest nfc sefaria_data (before ++ ref :: after) = (out1, Raise e).
Proof.
  intros Hbefore Hfetch. unfold build_torah_manifest.
  rewrite torah_loop_app, Hbefore. cbn [torah_loop]. rewrite Hfetch.
  reflexivity.
Qed.

(** X17: an answer that is not a JSON object raises [AttributeError]; an
    object without the key [text] gives no verse, so its reference is
    skipped with a warning. *)
Theorem fetch_sefaria_ref_edges (ref : str) (data : json) :
  sefaria_data ref = Ok data ->
  match data with
  | JObject fields =>
      dict_get fields (lit "text") = None ->
      fetch_sefaria_ref nfc sefaria_data ref = Ok [] /\
      build_torah_manifest nfc sefaria_data [ref] =
        ([warning ref], Ok {| profile := torah_profile; units := [] |})
  | _ =>
      fetch_sefaria_ref nfc sefaria_data ref = Raise AttributeError /\
      build_torah_manifest nfc sefaria_data [ref] = ([], Raise AttributeError)
  end.
Proof.
  intros Hd.
  assert (Hbad : fetch_sefaria_ref nfc sefaria_data ref = Raise AttributeError ->
    build_torah_manifest nfc sefaria_data [ref] = ([], Raise AttributeError)).
  { intros Hf. unfold build_torah_manifest. cbn [torah_loop]. rewrite Hf.
    reflexivity. }
  destruct data; unfold fetch_sefaria_ref at 1; rewrite Hd; cbn [bind];
    try (split; [reflexivity | apply Hbad; unfold fetch_sefaria_ref;
                                rewrite Hd; reflexivity]).
  intros Hnone. rewrite Hnone.
  assert (Hf : fetch_sefaria_ref nfc sefaria_data ref = Ok [])
    by (unfold fetch_sefaria_ref; rewrite Hd; cbn [bind]; rewrite Hnone; reflexivity).
  split; [reflexivity|].
  unfold build_torah_manifest. cbn [torah_loop]. rewrite Hf. reflexivity.
Qed.

(** X18: [fetch_sefaria_ref] returns exactly the normal forms of the
    strings of the answer's [text] that hold a character of the Hebrew
    blocks: every verse returned is [nfc s] for a string [s] found in the
    value of [text] (directly or inside nested lists) and holds such a
    character, and every such string of [text] has its normal form among
    the verses returned. *)
Theorem fetch_sefaria_ref_hebrew (ref : str) (verses : list str) :
  fetch_sefaria_ref nfc sefaria_data ref = Ok verses ->
  exists fields,
    sefaria_data ref = Ok (JObject fields) /\
    Forall (fun v =>
              existsb is_hebrew v = true /\
              exists s, v = nfc s /\
                        string_of s (default (JArray []) (dict_get fields (lit "text"))))
           verses /\
    forall s,
      string_of s (default (JArray []) (dict_get fields (lit "text"))) ->
      existsb is_hebrew (nfc s) = true -> In (nfc s) verses.
Proof.
  unfold fetch_sefaria_ref. intros H.
  apply bind_ok in H as (data & Hdata & H).
  apply bind_ok in H as (text & Htext & [= <-]).
  destruct data as [| | | | |fields]; try discriminate Htext.
  injection Htext as <-. exists fields. split; [exact Hdata|]. split.
  - apply List.Forall_forall. intros v Hv.
    apply List.filter_In in Hv as [Hin Hheb]. split; [exact Hheb|].
    apply flatten_strings. exact Hin.
  - intros s Hs Hheb. apply List.filter_In. split; [|exact Hheb].
    apply strings_flatten. exact Hs.
Qed.

End BuilderExtras.

(** *** The cache key and the address of a reference *)

(** [ref.replace(" ", "_")] *)
Definition underscored (ref : str) : str :=
  map (fun c => if (c =? 32)%N then 95%N else c) ref.

(** The cache key of [fetch_sefaria_ref]. *)
Definition sefaria_cache_key (ref : str) : str :=
  lit "sefaria/" ++ underscored ref ++ lit ".json".

(** [SEFARIA_TEXTS.format(ref=ref)] *)
Definition sefaria_url (ref : str) : str :=
  lit "https://www.sefaria.org/api/texts/" ++ ref ++
  lit "?lang=he&vhe=Tanach%20with%20Nikud%20and%20Cantillation".

(** X19: the cache key forgets the difference between a space and an
    underscore, the address does not: two references have the same key
    exactly when they agree once spaces are written as underscores, and the
    same address only when they are equal.  So [Genesis 1] and [Genesis_1]
    are fetched from different addresses and cached under one key. *)
Theorem sefaria_cache_key_collisions (r1 r2 : str) :
  (sefaria_cache_key r1 = sefaria_cache_key r2 <-> underscored r1 = underscored r2) /\
  (sefaria_url r1 = sefaria_url r2 <-> r1 = r2) /\
  sefaria_cache_key (lit "Genesis 1") = sefaria_cache_key (lit "Genesis_1") /\
  sefaria_url (lit "Genesis 1") <> sefaria_url (lit "Genesis_1").
Proof.
  split; [|split; [|split]].
  - unfold sefaria_cache_key. split.
    + intros H. apply app_inv_head, app_inv_tail in H. exact H.
    + intros ->. reflexivity.
  - unfold sefaria_url. split.
    + intros H. apply app_inv_head, app_inv_tail in H. exact H.
    + intros ->. reflexivity.
  - reflexivity.
  - intros H. apply app_inv_head, app_inv_tail in H. discriminate H.
Qed.

(** *** The properties above on the example inputs *)

Lemma entry_recomputable_witness :
  exists m e,
    build_torah_manifest (fun s => s) demo_sefaria [lit "Genesis 1:1"] = ([], Ok m) /\
    In e (units m) /\
    exists root,
      merkle_root [sha3 [xd7; x99]] = Ok root /\
      root_hex e = hhex root /\
      sealed_root_hex e = hhex (sha3 (root ++ be_bytes 8 (nonce_uint64 e))) /\
      0 <= nonce_uint64 e < 2000000 /\
      forall k, 0 <= k < nonce_uint64 e ->
        int_from_bytes_big (sha3 (root ++ be_bytes 8 k)) mod 19 <> 0.
Proof.
  eexists. eexists.
  split; [vm_compute; reflexivity|].
  split; [left; reflexivity|].
  eapply (entry_recomputable (fun s => s) ascii_int (Raise RequestError)
            demo_sefaria [lit "Genesis 1:1"] []).
  - right. vm_compute. reflexivity.
  - left. reflexivity.
  - vm_compute. reflexivity.
Defined.

Lemma entry_field_sizes_witness :
  exists m e,
    build_torah_manifest (fun s => s) demo_sefaria [lit "Genesis 1:1"] = ([], Ok m) /\
    In e (units m) /\
    Forall (fun h => length h = 64%nat /\ Forall lower_hex h)
           (root_hex e :: sealed_root_hex e :: verse_hashes_hex e) /\
    (1 <= verse_count e)%nat.
Proof.
  eexists. eexists.
  split; [vm_compute; reflexivity|].
  split; [left; reflexivity|].
  eapply (entry_field_sizes (fun s => s) ascii_int (Raise RequestError)
            demo_sefaria [lit "Genesis 1:1"] []).
  - right. vm_compute. reflexivity.
  - left. reflexivity.
Defined.

Lemma quran_names_distinct_witness :
  exists m,
    build_quran_manifest (fun s => s) ascii_int (Ok demo_text) = Ok m /\
    List.NoDup (map name (units m)) /\
    exists text, Ok demo_text = Ok text /\
                 length (units m) = length (parse_chapters (fun s => s) text).
Proof.
  eexists. split; [vm_compute; reflexivity|].
  apply (quran_names_distinct (fun s => s) ascii_int (Ok demo_text)).
  vm_compute. reflexivity.
Defined.

Lemma quran_verses_conserved_witness :
  exists m,
    build_quran_manifest (fun s => s) ascii_int (Ok demo_text) = Ok m /\
    exists text,
      Ok demo_text = Ok text /\
      list_sum (map verse_count (units m)) =
      length (List.filter is_verse_line (splitlines text)).
Proof.
  eexists. split; [vm_compute; reflexivity|].
  apply (quran_verses_conserved (fun s => s) ascii_int (Ok demo_text)).
  vm_compute. reflexivity.
Defined.

Lemma quran_bad_key_raises_witness :
  exists e, build_quran_manifest (fun s => s) ascii_int (Ok (lit "x:1|f")) = Raise e.
Proof.
  apply (quran_bad_key_raises (fun s => s) ascii_int (Ok (lit "x:1|f")) (lit "x:1|f")).
  - reflexivity.
  - vm_compute. left. exists ValueError. reflexivity.
Defined.

Lemma torah_references_accounted_witness :
  exists out m,
    build_torah_manifest (fun s => s) demo_sefaria
      [lit "Nothing"; lit "Genesis 1:1"; lit "Nothing"] = (out, Ok m) /\
    (length (units m) + length out =
     length [lit "Nothing"; lit "Genesis 1:1"; lit "Nothing"])%nat.
Proof.
  eexists. eexists. split; [vm_compute; reflexivity|].
  apply (torah_references_accounted (fun s => s) demo_sefaria).
  vm_compute. reflexivity.
Defined.

Lemma torah_fetch_failure_aborts_witness :
  build_torah_manifest (fun s => s) demo_sefaria
    ([lit "Nothing"] ++ lit "Unknown" :: [lit "Genesis 1:1"])
  = ([warning (lit "Nothing")], Raise RequestError).
Proof.
  apply (torah_fetch_failure_aborts (fun s => s) demo_sefaria
           [lit "Nothing"] [lit "Genesis 1:1"] (lit "Unknown") RequestError
           [warning (lit "Nothing")] []).
  - vm_compute. reflexivity.
  - vm_compute. reflexivity.
Defined.

Lemma fetch_sefaria_ref_edges_witness :
  fetch_sefaria_ref (fun s => s) demo_sefaria (lit "Nothing") = Ok [] /\
  build_torah_manifest (fun s => s) demo_sefaria [lit "Nothing"] =
    ([warning (lit "Nothing")], Ok {| profile := torah_profile; units := [] |}).
Proof.
  apply (fetch_sefaria_ref_edges (fun s => s) demo_sefaria (lit "Nothing") (JObject [])).
  - vm_compute. reflexivity.
  - reflexivity.
Defined.

Lemma fetch_sefaria_ref_hebrew_witness :
  exists fields,
    demo_sefaria_nested (lit "Genesis 1") = Ok (JObject fields) /\
    Forall (fun v =>
              existsb is_hebrew v = true /\
              exists s, v = (fun s => s) s /\
                        string_of s (default (JArray []) (dict_get fields (lit "text"))))
           [[0x05D1%N]; [0x05D0%N]; [0x05D5%N]] /\
    forall s,
      string_of s (default (JArray []) (dict_get fields (lit "text"))) ->
      existsb is_hebrew ((fun s => s) s) = true ->
      In ((fun s => s) s) [[0x05D1%N]; [0x05D0%N]; [0x05D5%N]].
Proof.
  apply (fetch_sefaria_ref_hebrew (fun s => s) demo_sefaria_nested (lit "Genesis 1")).
  vm_compute. reflexivity.
Defined.
